(** * A persistent, fixed-depth Merkle tree over a key-value store

    Shallow embedding of [trees/merkle-tree/interview-exam-2/src/merkle_tree.ts]
    (class [MerkleTree]) together with the revised copy of the same file that
    throws on an unexpected record size.

    - Buffers are lists of bytes.
    - The LevelUp store is a finite map from byte strings to byte strings;
      every [get] and [put] is also appended to a log, so that statements
      about which I/O an operation performs can be written down.
    - [async] methods become computations in a state-and-exception monad
      over the store; [throw] keeps the store as it was at the throw.
    - [updateElementRecursively] is not structurally recursive (it stops
      when the store has no 64-byte record under the current key), so it
      takes a fuel argument; running out of fuel is a separate outcome.
    - The hasher ([Sha256Hasher]: [hash] and [compress]) is imported from a
      file that is not part of the sources; it is a parameter of the
      development. *)

From Stdlib Require Import ZArith List Lia.
From Stdlib Require Import Strings.Byte.
From stdpp Require Import base tactics option list countable gmap.

Open Scope Z_scope.

(** ** Buffers *)

Abbreviation Buffer := (list byte).

#[global] Instance byte_eq_decision : EqDecision byte := Byte.byte_eq_dec.

#[global] Instance byte_countable : Countable byte :=
  inj_countable Byte.to_N Byte.of_N Byte.of_to_N.

Module Buf.

(** [Buffer.alloc(n)]: [n] zero bytes. *)
Definition alloc (n : nat) : Buffer := repeat x00 n.

(** [buf.slice(a, b)] for [0 <= a <= b]. *)
Definition slice (a b : nat) (buf : Buffer) : Buffer := take (b - a) (drop a buf).

(** [src.copy(dst)]: overwrite the front of [dst] with [src], as far as it
    fits; the length of [dst] does not change. *)
Definition copy (src dst : Buffer) : Buffer :=
  take (length dst) src ++ drop (length src) dst.

Definition byte_of_Z (z : Z) : byte :=
  match Byte.of_N (Z.to_N (z mod 256)) with Some b => b | None => x00 end.

Definition Z_of_byte (b : byte) : Z := Z.of_N (Byte.to_N b).

(** The four bytes of a 32-bit unsigned integer, least significant first. *)
Definition le32 (v : Z) : Buffer :=
  [byte_of_Z v; byte_of_Z (v / 2^8); byte_of_Z (v / 2^16); byte_of_Z (v / 2^24)].

(** [buf.writeUInt32LE(v, off)]; Node raises a [RangeError] when [v] is not
    a 32-bit unsigned integer or the four bytes do not fit. *)
Definition writeUInt32LE (v : Z) (off : nat) (buf : Buffer) : option Buffer :=
  if bool_decide (0 <= v < 2^32) && bool_decide (off + 4 <= length buf)%nat
  then Some (take off buf ++ le32 v ++ drop (off + 4) buf)
  else None.

(** [buf.readUInt32LE(off)]; a [RangeError] when four bytes are not there. *)
Definition readUInt32LE (off : nat) (buf : Buffer) : option Z :=
  match drop off buf with
  | b0 :: b1 :: b2 :: b3 :: _ =>
      Some (Z_of_byte b0 + 2^8 * Z_of_byte b1 + 2^16 * Z_of_byte b2 + 2^24 * Z_of_byte b3)
  | _ => None
  end.

End Buf.

(** ** The store and the monad of the [async] methods *)

Inductive event : Type :=
| Get (key : Buffer) (found : option Buffer)
| Put (key value : Buffer).

Record Store : Type := mkStore { data : gmap Buffer Buffer; log : list event }.

Inductive error : Type :=
| BadDepth          (* Error('Bad depth') of the constructor *)
| RangeError        (* a Buffer read or write outside its bounds *)
| DataFormat.       (* Error("Data Format is not support") of the revised file *)

Inductive outcome (A : Type) : Type :=
| Ok (a : A) (s : Store)
| Throw (e : error) (s : Store)
| OutOfFuel.
Arguments Ok {A} a s.
Arguments Throw {A} e s.
Arguments OutOfFuel {A}.

Definition M (A : Type) : Type := Store -> outcome A.

Definition ret {A} (a : A) : M A := fun s => Ok a s.

Definition bind {A B} (m : M A) (k : A -> M B) : M B :=
  fun s => match m s with
           | Ok a s' => k a s'
           | Throw e s' => Throw e s'
           | OutOfFuel => OutOfFuel
           end.

Definition throw {A} (e : error) : M A := fun s => Throw e s.

Definition diverge {A} : M A := fun _ => OutOfFuel.

Declare Scope merkle_scope.
Delimit Scope merkle_scope with merkle.
Notation "'let*' x ':=' m 'in' k" := (bind m (fun x => k))
  (at level 10, x name, m at level 100, k at level 200) : merkle_scope.
Open Scope merkle_scope.

(** [await db.get(key)], as a lookup that also reports absence. *)
Definition db_get (key : Buffer) : M (option Buffer) :=
  fun s => Ok (data s !! key) (mkStore (data s) (log s ++ [Get key (data s !! key)])).

(** [await db.get(key).catch(() => Buffer.alloc(0))]. *)
Definition db_get_or_empty (key : Buffer) : M Buffer :=
  let* found := db_get key in
  ret (match found with Some v => v | None => Buf.alloc 0 end).

(** [await db.put(key, value)]. *)
Definition db_put (key value : Buffer) : M unit :=
  fun s => Ok tt (mkStore (<[key := value]> (data s)) (log s ++ [Put key value])).

(** ** The tree *)

Definition MAX_DEPTH : Z := 32.
Definition LEAF_BYTES : nat := 64.

(** The fields of a [MerkleTree] object apart from the shared [db]. [name]
    is the key under which the metadata is kept, [Buffer.from(name)]. *)
Record MerkleTree : Type := mkTree { name : Buffer; depth : Z; root : Buffer }.

(** [isLeftNode]: [Math.floor(index / Math.pow(2, layer - 1)) % 2 === 0], on
    integer arguments. For [layer <= 0] the power is a fraction and the
    quotient is the integer [index * 2^(1 - layer)]; [%] is the remainder
    with the sign of the dividend. *)
Definition isLeftNode (index layer : Z) : bool :=
  if 1 <=? layer
  then Z.rem (index / 2 ^ (layer - 1)) 2 =? 0
  else Z.rem (index * 2 ^ (1 - layer)) 2 =? 0.

(** ** The revised copy of the file

    The second copy of [merkle_tree.ts] differs from the first in three
    places that matter here: [updateElementRecursively] throws on a record
    that is neither empty nor 64 bytes long, [isLeftNode] takes the
    remainder before the floor, and [initialize] is the new name of
    [createEmptyTree]. *)

Module Revised.

(** [Math.floor(index / Math.pow(2, layer - 1) % 2) === 0]. For
    [layer >= 1] the quotient [index / 2^(layer-1)] is a fraction, and its
    remainder by 2 is [(index rem 2^layer) / 2^(layer-1)], still a fraction
    with the sign of [index]; the floor of that is the integer quotient
    rounded down. For [layer <= 0] the quotient is the integer
    [index * 2^(1-layer)]. *)
Definition isLeftNode (index layer : Z) : bool :=
  if 1 <=? layer
  then Z.rem index (2 ^ layer) / 2 ^ (layer - 1) =? 0
  else Z.rem (index * 2 ^ (1 - layer)) 2 =? 0.

(** The loop of the revised [getHashPath]: [layer] goes down only when a
    64-byte record was found. *)
Fixpoint getHashPath_loop (n : nat) (index : Z) (hashPath : list (Buffer * Buffer))
    (currentNode : Buffer) (layer : Z) : M (list (Buffer * Buffer)) :=
  match n with
  | O => ret hashPath
  | S n' =>
      let* data := db_get_or_empty currentNode in
      if bool_decide (length data = 64%nat)
      then
        let leftSide := Buf.slice 0 32 data in
        let rightSide := Buf.slice 32 64 data in
        getHashPath_loop n' index (hashPath ++ [(leftSide, rightSide)])
          (if isLeftNode index layer then leftSide else rightSide) (layer - 1)
      else getHashPath_loop n' index hashPath currentNode layer
  end.

Definition getHashPath (t : MerkleTree) (index : Z) : M (list (Buffer * Buffer)) :=
  let* hashPath := getHashPath_loop (Z.to_nat (depth t)) index [] (root t) (depth t) in
  ret (rev hashPath).

Section Hasher.

Variable hash : Buffer -> Buffer.
Variable compress : Buffer -> Buffer -> Buffer.

Fixpoint updateElementRecursively (fuel : nat)
    (parent : Buffer) (index : Z) (value : Buffer) (layer : Z) : M Buffer :=
  match fuel with
  | O => diverge
  | S fuel' =>
      let* data := db_get_or_empty parent in
      if bool_decide (length data = 0%nat) then ret (hash value)
      else if bool_decide (length data = 64%nat) then
        let leftSide := Buf.slice 0 32 data in
        let rightSide := Buf.slice 32 64 data in
        if isLeftNode index layer then
          let* newLeftNode := updateElementRecursively fuel' leftSide index value (layer - 1) in
          let newParent := compress newLeftNode rightSide in
          let* _ := db_put newParent (newLeftNode ++ rightSide) in
          ret newParent
        else
          let* newRightNode := updateElementRecursively fuel' rightSide index value (layer - 1) in
          let newParent := compress leftSide newRightNode in
          let* _ := db_put newParent (leftSide ++ newRightNode) in
          ret newParent
      else throw DataFormat
  end.

End Hasher.

End Revised.

(** ** The variant with stump nodes

    [trees/merkle-tree/typescript/src/index.ts]: the same class with two
    readers, [getHashPath2] and [getHashPath], and a writer
    [recursiveUpdateElement] that returns a 65-byte stump for a new leaf.
    Its methods throw two errors of their own, so they run in a monad with
    a wider error type; [console.log] calls are left out. *)

Module Stump.

Inductive failure : Type :=
| Base (e : error)       (* an error of the first file, e.g. a RangeError *)
| NotSupported           (* Error("NOT SUPPORTED") *)
| UnexpectedFormat.      (* Error('Unexpected data format') *)

Inductive result (A : Type) : Type :=
| Done (a : A) (s : Store)
| Fail (f : failure) (s : Store)
| NoFuel.
Arguments Done {A} a s.
Arguments Fail {A} f s.
Arguments NoFuel {A}.

Definition V (A : Type) : Type := Store -> result A.

Definition vret {A} (a : A) : V A := fun s => Done a s.

Definition vbind {A B} (m : V A) (k : A -> V B) : V B :=
  fun s => match m s with
           | Done a s' => k a s'
           | Fail f s' => Fail f s'
           | NoFuel => NoFuel
           end.

Definition vfail {A} (f : failure) : V A := fun s => Fail f s.

(** A computation of the first file, run here. *)
Definition lift {A} (m : M A) : V A :=
  fun s => match m s with
           | Ok a s' => Done a s'
           | Throw e s' => Fail (Base e) s'
           | OutOfFuel => NoFuel
           end.

Notation "'let+' x ':=' m 'in' k" := (vbind m (fun x => k))
  (at level 10, x name, m at level 100, k at level 200) : merkle_scope.

(** [buf.readUInt32BE(off)]; a [RangeError] when four bytes are not there. *)
Definition readUInt32BE (off : nat) (buf : Buffer) : option Z :=
  match drop off buf with
  | b0 :: b1 :: b2 :: b3 :: _ =>
      Some (2^24 * Buf.Z_of_byte b0 + 2^16 * Buf.Z_of_byte b1
            + 2^8 * Buf.Z_of_byte b2 + Buf.Z_of_byte b3)
  | _ => None
  end.

(** [buf.readUInt8(off)]. *)
Definition readUInt8 (off : nat) (buf : Buffer) : option Z :=
  match drop off buf with
  | b :: _ => Some (Buf.Z_of_byte b)
  | [] => None
  end.

Section Hasher.

Variable hash : Buffer -> Buffer.
Variable compress : Buffer -> Buffer -> Buffer.

(** The loop of [computeZeroRoot]: [n] iterations still to run. *)
Fixpoint computeZeroRoot_loop (n : nat) (zeroHash : Buffer) : Buffer :=
  match n with
  | O => zeroHash
  | S n' => computeZeroRoot_loop n' (compress zeroHash zeroHash)
  end.

(** [computeZeroRoot(layer)]; no iteration for [layer <= 0]. *)
Definition computeZeroRoot (layer : Z) : Buffer :=
  computeZeroRoot_loop (Z.to_nat layer) (hash (Buf.alloc 64)).

(** The loop of [getHashPath2]. The three tests on the size follow one
    another; at most one of them holds. *)
Fixpoint getHashPath2_loop (n : nat) (index : Z) (hashPath : list (Buffer * Buffer))
    (currentNode : Buffer) (layer : Z) : V (list (Buffer * Buffer)) :=
  match n with
  | O => vret hashPath
  | S n' =>
      let+ data := lift (db_get_or_empty currentNode) in
      let leftChild := Buf.slice 0 32 data in
      let rightChild := Buf.slice 32 64 data in
      let hashPath' :=
        if bool_decide (length data = 64%nat)
        then hashPath ++ [(leftChild, rightChild)] else hashPath in
      let currentNode' :=
        if bool_decide (length data = 64%nat)
        then (if isLeftNode index layer then leftChild else rightChild)
        else currentNode in
      if bool_decide (length data = 65%nat) then vfail NotSupported
      else if bool_decide (length data = 0%nat) then vfail NotSupported
      else getHashPath2_loop n' index hashPath' currentNode' (layer - 1)
  end.

Definition getHashPath2 (t : MerkleTree) (index : Z) : V (list (Buffer * Buffer)) :=
  let+ hashPath := getHashPath2_loop (Z.to_nat (depth t)) index [] (root t) (depth t) in
  vret (rev hashPath).

(** The loop of [getHashPath]: [n] iterations still to run, [i] the loop
    counter. An entry of the path is an array of one or two buffers. *)
Fixpoint getHashPath_loop (n : nat) (i : Z) (index : Z) (hashPath : list (list Buffer))
    (currentNode : Buffer) : V (list (list Buffer)) :=
  match n with
  | O => vret hashPath
  | S n' =>
      let+ data := lift (db_get_or_empty currentNode) in
      if bool_decide (length data = 64%nat) then
        let leftChild := Buf.slice 0 32 data in
        let rightChild := Buf.slice 32 64 data in
        getHashPath_loop n' (i - 1) index (hashPath ++ [[leftChild; rightChild]])
          (if isLeftNode index i then leftChild else rightChild)
      else if bool_decide (length data = 65%nat) then
        let filledLeaf := Buf.slice 0 64 data in
        match readUInt32BE 64 data with
        | None => vfail (Base RangeError)
        | Some storedIndex =>
            let hashPath' := hashPath ++ [[filledLeaf]] in
            if storedIndex =? index then vret hashPath'
            else getHashPath_loop n' (i - 1) index hashPath' (computeZeroRoot (i - 1))
        end
      else if bool_decide (length data = 0%nat) then
        vret (hashPath ++ [[computeZeroRoot (i - 1); computeZeroRoot (i - 1)]])
      else getHashPath_loop n' (i - 1) index hashPath currentNode
  end.

Definition getHashPath (t : MerkleTree) (index : Z) : V (list (list Buffer)) :=
  getHashPath_loop (Z.to_nat (depth t)) (depth t - 1) index [] (root t).

(** [recursiveUpdateElement(parent, value, index, layer)]. *)
Fixpoint recursiveUpdateElement (fuel : nat)
    (parent : Buffer) (value : Buffer) (index : Z) (layer : Z) : V Buffer :=
  match fuel with
  | O => fun _ => NoFuel
  | S fuel' =>
      let+ data := lift (db_get_or_empty parent) in
      if bool_decide (length data = 0%nat) then
        match Buf.writeUInt32LE index 0 (Buf.alloc 32) with
        | None => vfail (Base RangeError)
        | Some indexedBuffer =>
            let hashedValue := hash value in
            let stumpFlag := [x01] in
            vret (hashedValue ++ indexedBuffer ++ stumpFlag)
        end
      else if bool_decide (length data = 65%nat) then
        let existingValue := Buf.slice 0 32 data in
        match Buf.readUInt32LE 32 data, readUInt8 36 data with
        | Some storedIndex, Some _ =>
            if storedIndex =? index then vret (hash value)
            else
              let hashedValue := hash value in
              let leftChild := if storedIndex <? index then existingValue else hashedValue in
              let rightChild := if storedIndex <? index then hashedValue else existingValue in
              vret (compress leftChild rightChild)
        | _, _ => vfail (Base RangeError)
        end
      else if bool_decide (length data = 64%nat) then
        let leftChild := Buf.slice 0 32 data in
        let rightChild := Buf.slice 32 64 data in
        if isLeftNode index layer then
          let+ updatedLeft := recursiveUpdateElement fuel' leftChild value index (layer - 1) in
          let parent' := compress (Buf.slice 0 32 updatedLeft) rightChild in
          let+ _ := lift (db_put parent' (Buf.slice 0 32 updatedLeft ++ rightChild)) in
          vret parent'
        else
          let+ updatedRight := recursiveUpdateElement fuel' rightChild value index (layer - 1) in
          let parent' := compress leftChild (Buf.slice 0 32 updatedRight) in
          let+ _ := lift (db_put parent' (leftChild ++ Buf.slice 0 32 updatedRight)) in
          vret parent'
      else vfail UnexpectedFormat
  end.

End Hasher.

End Stump.

(** ** A small hasher to run the code on

    Both functions fold the bytes into a number below [2^256] and write it
    out as 32 bytes; they differ in the start value. *)

Module Toy.

Definition mix (seed : Z) (bs : Buffer) : Z :=
  fold_left (fun acc b => (acc * 131 + Buf.Z_of_byte b + 1) mod 2^256) bs seed.

Definition enc32 (z : Z) : Buffer :=
  map (fun k => Buf.byte_of_Z (z / 2 ^ (8 * Z.of_nat k))) (seq 0 32).

Definition hash (v : Buffer) : Buffer := enc32 (mix 1 v).

Definition compress (a b : Buffer) : Buffer := enc32 (mix 2 (a ++ b)).

End Toy.

(** ** A hasher built on one hash function

    [compress] hashes the concatenation of its two arguments with the
    function that also hashes the leaf values, as a hasher built on a single
    hash function does. For such a hasher [hash (l ++ r)] and [compress l r]
    are the same computation on the same 64 bytes: the hash of the leaf
    value [l ++ r] is the key of the node with the children [l] and [r]
    without any collision of the hash function. The hash function folds
    the bytes into a number of 256 bits and writes it out as 32 bytes. *)

Module OneHash.

Definition mix (bs : Buffer) : Z :=
  fold_left (fun acc b => Z.land (131 * acc + Buf.Z_of_byte b + 1) (Z.ones 256)) bs 1.

Definition enc32 (z : Z) : Buffer :=
  map (fun k => Buf.byte_of_Z (Z.land (Z.shiftr z (8 * Z.of_nat k)) 255)) (seq 0 32).

Definition hash (v : Buffer) : Buffer := enc32 (mix v).

Definition compress (a b : Buffer) : Buffer := hash (a ++ b).

End OneHash.

Definition empty_store : Store := mkStore ∅ [].

(** The value that a run returns, and the store that it leaves behind. *)
Definition value_of {A} (o : outcome A) : option A :=
  match o with
  | Ok a _ => Some a
  | _ => None
  end.

Definition store_of {A} (o : outcome A) : Store :=
  match o with
  | Ok _ s => s
  | Throw _ s => s
  | OutOfFuel => empty_store
  end.

#[global] Instance event_eq_decision : EqDecision event.
Proof. solve_decision. Defined.

#[global] Instance MerkleTree_eq_decision : EqDecision MerkleTree.
Proof. solve_decision. Defined.


Section Tree.

(** [Sha256Hasher.hash] and [Sha256Hasher.compress]. *)
Variable hash : Buffer -> Buffer.
Variable compress : Buffer -> Buffer -> Buffer.

(** The constructor: depth check, and the optional [root] argument. *)
Definition construct (nm : Buffer) (d : Z) (r : option Buffer) : M MerkleTree :=
  if negb ((1 <=? d) && (d <=? MAX_DEPTH))
  then throw BadDepth
  else ret (mkTree nm d (match r with Some r => r | None => Buf.alloc 32 end)).

(** [writeMetaData()] without a batch. *)
Definition writeMetaData (t : MerkleTree) : M unit :=
  let data0 := Buf.alloc 40 in
  let data1 := Buf.copy (root t) data0 in
  match Buf.writeUInt32LE (depth t) 32 data1 with
  | Some data2 => db_put (name t) data2
  | None => throw RangeError
  end.

(** The loop of [createEmptyTree]: [n] iterations still to run. *)
Fixpoint createEmptyTree_loop (n : nat) (defaultNode : Buffer) : M Buffer :=
  match n with
  | O => ret defaultNode
  | S n' =>
      let parent := compress defaultNode defaultNode in
      let* _ := db_put parent (defaultNode ++ defaultNode) in
      createEmptyTree_loop n' parent
  end.

(** [createEmptyTree()]; the object with its new root is the result. *)
Definition createEmptyTree (t : MerkleTree) : M MerkleTree :=
  let* defaultNode := createEmptyTree_loop (Z.to_nat (depth t)) (hash (Buf.alloc LEAF_BYTES)) in
  let t' := mkTree (name t) (depth t) defaultNode in
  let* _ := writeMetaData t' in
  ret t'.

(** [MerkleTree.new(db, name, depth)]. A Buffer is truthy whatever its
    length, so any record found under [name] takes the restoring branch. *)
Definition new (nm : Buffer) (d : Z) : M MerkleTree :=
  let* meta := db_get nm in
  match meta with
  | Some meta =>
      let r := Buf.slice 0 32 meta in
      match Buf.readUInt32LE 32 meta with
      | Some d' => construct nm d' (Some r)
      | None => throw RangeError
      end
  | None =>
      let* tree := construct nm d None in
      createEmptyTree tree
  end.

Definition getRoot (t : MerkleTree) : Buffer := root t.

(** The loop of [getHashPath]: [n] iterations still to run, with the
    values of [hashPath], [currentNode] and [layer] on entry. *)
Fixpoint getHashPath_loop (n : nat) (index : Z) (hashPath : list (Buffer * Buffer))
    (currentNode : Buffer) (layer : Z) : M (list (Buffer * Buffer)) :=
  match n with
  | O => ret hashPath
  | S n' =>
      let* data := db_get_or_empty currentNode in
      if bool_decide (length data = 64%nat)
      then
        let leftNode := Buf.slice 0 32 data in
        let rightNode := Buf.slice 32 64 data in
        getHashPath_loop n' index (hashPath ++ [(leftNode, rightNode)])
          (if isLeftNode index layer then leftNode else rightNode) (layer - 1)
      else getHashPath_loop n' index hashPath currentNode (layer - 1)
  end.

(** [getHashPath(index)]: the content of the returned [HashPath]. *)
Definition getHashPath (t : MerkleTree) (index : Z) : M (list (Buffer * Buffer)) :=
  let* hashPath := getHashPath_loop (Z.to_nat (depth t)) index [] (root t) (depth t) in
  ret (rev hashPath).

(** [updateElementRecursively(parent, index, value, layer)]. *)
Fixpoint updateElementRecursively (fuel : nat) (t : MerkleTree)
    (parent : Buffer) (index : Z) (value : Buffer) (layer : Z) : M Buffer :=
  match fuel with
  | O => diverge
  | S fuel' =>
      let* data := db_get_or_empty parent in
      if bool_decide (length data = 0%nat) then ret (hash value)
      else if bool_decide (length data = 64%nat) then
        let leftNode := Buf.slice 0 32 data in
        let rightNode := Buf.slice 32 64 data in
        if isLeftNode index layer then
          let* updatedLeftNode := updateElementRecursively fuel' t leftNode index value (layer - 1) in
          let newParent := compress updatedLeftNode rightNode in
          let* _ := db_put newParent (updatedLeftNode ++ rightNode) in
          ret newParent
        else
          let* updatedRightNode := updateElementRecursively fuel' t rightNode index value (layer - 1) in
          let newParent := compress leftNode updatedRightNode in
          let* _ := db_put newParent (leftNode ++ updatedRightNode) in
          ret newParent
      else ret (root t)
  end.

(** [updateElement(index, value)]; the returned root is the root of the
    returned object. *)
Definition updateElement (fuel : nat) (t : MerkleTree) (index : Z) (value : Buffer)
    : M MerkleTree :=
  let* r := updateElementRecursively fuel t (root t) index value (depth t) in
  let t' := mkTree (name t) (depth t) r in
  let* _ := writeMetaData t' in
  ret t'.

(** [updateElement] applied to a list of (index, value) pairs in turn. *)
Fixpoint updateElements (fuel : nat) (t : MerkleTree) (ops : list (Z * Buffer))
    : M MerkleTree :=
  match ops with
  | [] => ret t
  | (index, value) :: ops' =>
      let* t' := updateElement fuel t index value in
      updateElements fuel t' ops'
  end.

(** A tree opened with [new] and then updated by [ops]. *)
Definition session (fuel : nat) (nm : Buffer) (d : Z) (ops : list (Z * Buffer))
    : M MerkleTree :=
  let* t := new nm d in
  updateElements fuel t ops.

(** ** The tree the store stands for

    The code never holds a tree in memory: it holds a root hash, and the
    store maps the hash of every inner node to the hashes of its two
    children. [tree] is the mathematical tree behind a root hash, with the
    hash of the leaf value at each leaf. It is used to say which hashes
    must not collide, and in the proofs. *)

Inductive tree : Type :=
| Leaf (h : Buffer)
| Node (l r : tree).

Fixpoint thash (t : tree) : Buffer :=
  match t with
  | Leaf h => h
  | Node l r => compress (thash l) (thash r)
  end.

Fixpoint height (t : tree) : nat :=
  match t with
  | Leaf _ => O
  | Node l _ => S (height l)
  end.

(** All leaves at depth [n], each holding 32 bytes. *)
Fixpoint perfect (n : nat) (t : tree) : Prop :=
  match n, t with
  | O, Leaf h => length h = 32%nat
  | S n', Node l r => perfect n' l /\ perfect n' r
  | _, _ => False
  end.

(** The empty tree of depth [n]: every leaf is the hash of 64 zero bytes. *)
Fixpoint default_tree (n : nat) : tree :=
  match n with
  | O => Leaf (hash (Buf.alloc LEAF_BYTES))
  | S n' => Node (default_tree n') (default_tree n')
  end.

(** Replace the leaf at index [i] by [x]: at a node whose children have
    height [k], bit [k] of [i] selects the right child. *)
Fixpoint upd (i : Z) (x : Buffer) (t : tree) : tree :=
  match t with
  | Leaf _ => Leaf x
  | Node l r =>
      if Z.testbit i (Z.of_nat (height l))
      then Node l (upd i x r)
      else Node (upd i x l) r
  end.

Fixpoint subtrees (t : tree) : list tree :=
  t :: match t with
       | Leaf _ => []
       | Node l r => subtrees l ++ subtrees r
       end.

(** The trees a sequence of updates goes through, the start included. *)
Fixpoint trees_of (t : tree) (ops : list (Z * Buffer)) : list tree :=
  t :: match ops with
       | [] => []
       | (i, v) :: ops' => trees_of (upd i (hash v) t) ops'
       end.

Definition tree_after (t : tree) (ops : list (Z * Buffer)) : tree :=
  fold_left (fun t op => upd (fst op) (hash (snd op)) t) ops t.

(** No two different nodes or leaves of the trees in [U] have the same
    hash, and none of these hashes is the key [nm] of the metadata. A leaf
    and a node are different, so this says in particular that the hash of
    a leaf is not the key [compress l r] of a node. *)
Definition collision_free (U : list tree) (nm : Buffer) : Prop :=
  (forall s1 s2, In s1 (flat_map subtrees U) -> In s2 (flat_map subtrees U) ->
     thash s1 = thash s2 -> s1 = s2) /\
  (forall s, In s (flat_map subtrees U) -> thash s <> nm).

(** The store has the record of every inner node of [t]. *)
Fixpoint present (db : gmap Buffer Buffer) (t : tree) : Prop :=
  match t with
  | Leaf _ => True
  | Node l r =>
      db !! compress (thash l) (thash r) = Some (thash l ++ thash r) /\
      present db l /\ present db r
  end.

(** Apart from the metadata, the store has only records of nodes of [U]. *)
Definition only_records (U : list tree) (nm : Buffer) (db : gmap Buffer Buffer) : Prop :=
  forall k c, db !! k = Some c ->
    k = nm \/
    exists l r, In (Node l r) (flat_map subtrees U) /\
      k = compress (thash l) (thash r) /\ c = thash l ++ thash r.

(** The reads of a descent to leaf [i] of [t], and the writes of the way
    back up through the updated tree [t]. *)
Fixpoint descent (i : Z) (t : tree) : list event :=
  match t with
  | Leaf h => [Get h None]
  | Node l r =>
      Get (thash t) (Some (thash l ++ thash r)) ::
      descent i (if Z.testbit i (Z.of_nat (height l)) then r else l)
  end.

Fixpoint ascent (i : Z) (t : tree) : list event :=
  match t with
  | Leaf _ => []
  | Node l r =>
      ascent i (if Z.testbit i (Z.of_nat (height l)) then r else l) ++
      [Put (thash t) (thash l ++ thash r)]
  end.

(** The pairs of child hashes on the way to leaf [i], the root's first. *)
Fixpoint pairs_down (i : Z) (t : tree) : list (Buffer * Buffer) :=
  match t with
  | Leaf _ => []
  | Node l r =>
      (thash l, thash r) ::
      pairs_down i (if Z.testbit i (Z.of_nat (height l)) then r else l)
  end.

(** What a list of events does to the content of the store. *)
Definition replay (evs : list event) (db : gmap Buffer Buffer) : gmap Buffer Buffer :=
  fold_left (fun db ev => match ev with
                          | Put k v => <[k := v]> db
                          | Get _ _ => db
                          end) evs db.

(** The record [writeMetaData] stores for a 32-byte root. *)
Definition metadata (r : Buffer) (d : Z) : Buffer :=
  r ++ Buf.le32 d ++ Buf.alloc 4.

(** The verifier of the specification: start from the leaf hash and go up
    through the pairs of a hash path (leaf level first); at level [k] the
    running hash replaces the left entry when bit [k] of [i] is 0 and the
    right entry when it is 1. *)
Fixpoint recompute (k : Z) (i : Z) (cur : Buffer) (path : list (Buffer * Buffer)) : Buffer :=
  match path with
  | [] => cur
  | (l, r) :: path' =>
      recompute (k + 1) i (if Z.testbit i k then compress l cur else compress cur r) path'
  end.

(** [n]-fold compression of a value with itself. *)
Definition default_node (n : nat) : Buffer :=
  Nat.iter n (fun x => compress x x) (hash (Buf.alloc LEAF_BYTES)).

(** The subtree of height [k] on the way to leaf [i] of [t]. *)
Fixpoint node_at (k : nat) (i : Z) (t : tree) : tree :=
  match t with
  | Leaf _ => t
  | Node l r =>
      if (height t <=? k)%nat then t
      else node_at k i (if Z.testbit i (Z.of_nat (height l)) then r else l)
  end.


(** The state of a tree object [T] over a store [s] that stands for the
    tree [t] of depth [n], all trees taken from [U]. *)
Definition Inv (U : list tree) (n : nat) (t : tree) (T : MerkleTree) (s : Store) : Prop :=
  depth T = Z.of_nat n /\ (n <= 32)%nat /\ perfect n t /\ root T = thash t /\
  In t U /\ present (data s) t /\ only_records U (name T) (data s).

(** The arguments [(parent, layer)] of the successive calls of
    [updateElementRecursively] in one descent: a call recurses exactly when
    it finds a 64-byte record. The descent only reads, so all calls see the
    same content [db]. *)
Fixpoint descentCalls (fuel : nat) (db : gmap Buffer Buffer) (parent : Buffer)
    (index layer : Z) : list (Buffer * Z) :=
  match fuel with
  | O => []
  | S fuel' =>
      (parent, layer) ::
      let data := match db !! parent with Some v => v | None => Buf.alloc 0 end in
      if bool_decide (length data = 64%nat)
      then descentCalls fuel' db
             (if isLeftNode index layer then Buf.slice 0 32 data else Buf.slice 32 64 data)
             index (layer - 1)
      else []
  end.

(** A record of an inner node: two 32-byte hashes under their compression. *)
Definition node_record (k c : Buffer) : Prop :=
  exists l r, length l = 32%nat /\ length r = 32%nat /\ c = l ++ r /\ k = compress l r.

(** Every record other than the one under [nm] is a node record. *)
Definition content_addressed (nm : Buffer) (db : gmap Buffer Buffer) : Prop :=
  forall k c, db !! k = Some c -> k = nm \/ node_record k c.

(** Every write in [evs] is the write of a node record. *)
Definition node_writes (evs : list event) : Prop :=
  Forall (fun ev => match ev with
                    | Put k c => node_record k c
                    | Get _ _ => True
                    end) evs.

Definition in_range (d : Z) (op : Z * Buffer) : Prop := 0 <= fst op < 2 ^ d.

(** The writes of empty-tree initialisation for the levels [j+1 .. j+n]:
    each new default node under its own hash. *)
Definition default_writes (j n : nat) : list event :=
  map (fun k => Put (default_node (S k)) (default_node k ++ default_node k)) (seq j n).


(** The reads of [getHashPath] on the way to leaf [i]: one per inner node. *)
Fixpoint walk (i : Z) (t : tree) : list event :=
  match t with
  | Leaf _ => []
  | Node l r =>
      Get (thash t) (Some (thash l ++ thash r)) ::
      walk i (if Z.testbit i (Z.of_nat (height l)) then r else l)
  end.


(** The arguments of the calls of a descent to leaf [i] of [t]. *)
Fixpoint path_calls (i : Z) (t : tree) : list (Buffer * Z) :=
  (thash t, Z.of_nat (height t)) ::
  match t with
  | Leaf _ => []
  | Node l r => path_calls i (if Z.testbit i (Z.of_nat (height l)) then r else l)
  end.

#[global] Instance tree_eq_decision : EqDecision tree.
Proof. solve_decision. Defined.

(** [collision_free] as a check that can be run; every hash is computed
    once. *)
Definition collision_freeb (U : list tree) (nm : Buffer) : bool :=
  let hs := map (fun s => (thash s, s)) (flat_map subtrees U) in
  forallb (fun p1 =>
    forallb (fun p2 =>
      implb (bool_decide (fst p1 = fst p2)) (bool_decide (snd p1 = snd p2))) hs) hs
  && forallb (fun p => negb (bool_decide (fst p = nm))) hs.

(** The leaf that a descent from layer [n] reaches when every step follows
    [isLeftNode]: a step to the right at layer [k] skips the [2^(k-1)]
    leaves of the left subtree. *)
Fixpoint leafNumber (n : nat) (index : Z) : Z :=
  match n with
  | O => 0
  | S n' =>
      (if isLeftNode index (Z.of_nat (S n')) then 0 else 2 ^ Z.of_nat n')
      + leafNumber n' index
  end.

(** The hash a verifier expects at leaf [j] after the updates [ops]: the
    hash of the last value written at [j], or of 64 zero bytes. *)
Definition leaf_hash_after (ops : list (Z * Buffer)) (j : Z) : Buffer :=
  fold_left (fun h op => if fst op =? j then hash (snd op) else h) ops
            (hash (Buf.alloc LEAF_BYTES)).

Definition is_get (ev : event) : Prop := exists k f, ev = Get k f.

Definition is_put (ev : event) : Prop := exists k c, ev = Put k c.


(** What a successfully opened or updated tree satisfies, whatever the
    store held before: reopening gives the same object. *)
Definition reopens (T : MerkleTree) (s : Store) : Prop :=
  length (root T) = 32%nat /\ 1 <= depth T <= 32 /\
  forall d0, new (name T) d0 s =
             Ok T (mkStore (data s) (log s ++ [Get (name T) (data s !! name T)])).

(** The size of what a lookup gave: absent counts as empty. *)
Definition found_size (c : option Buffer) : nat :=
  length (match c with Some v => v | None => Buf.alloc 0 end).

(** * Proofs *)

(** ** Buffers *)

Lemma alloc_length n : length (Buf.alloc n) = n.
Proof. apply repeat_length. Qed.

Lemma slice_left (a b : Buffer) :
  length a = 32%nat -> Buf.slice 0 32 (a ++ b) = a.
Proof.
  intros Ha. unfold Buf.slice. rewrite drop_0. simpl (32 - 0)%nat.
  apply (take_app_length' a b 32 (eq_sym Ha)).
Qed.

Lemma slice_right (a b : Buffer) :
  length a = 32%nat -> length b = 32%nat -> Buf.slice 32 64 (a ++ b) = b.
Proof.
  intros Ha Hb. unfold Buf.slice. rewrite (drop_app_length' a b 32 (eq_sym Ha)).
  simpl (64 - 32)%nat. rewrite <- Hb. apply firstn_all.
Qed.

Lemma slice_length_64 (c : Buffer) :
  length c = 64%nat ->
  length (Buf.slice 0 32 c) = 32%nat /\ length (Buf.slice 32 64 c) = 32%nat /\
  c = Buf.slice 0 32 c ++ Buf.slice 32 64 c.
Proof.
  intros Hc. unfold Buf.slice. rewrite drop_0. simpl (32 - 0)%nat. simpl (64 - 32)%nat.
  rewrite !length_take, length_drop, Hc. repeat split; try lia.
  rewrite (firstn_all2 (n := 32) (drop 32 c)) by (rewrite length_drop; lia).
  symmetry. apply take_drop.
Qed.

Lemma byte_of_Z_of_byte b : Buf.byte_of_Z (Buf.Z_of_byte b) = b.
Proof.
  unfold Buf.byte_of_Z, Buf.Z_of_byte.
  pose proof (Byte.to_N_bounded b) as Hb.
  rewrite Z.mod_small by lia. rewrite N2Z.id, Byte.of_to_N. reflexivity.
Qed.

Lemma Z_of_byte_of_Z z : Buf.Z_of_byte (Buf.byte_of_Z z) = z mod 256.
Proof.
  unfold Buf.byte_of_Z, Buf.Z_of_byte.
  pose proof (Z.mod_pos_bound z 256 eq_refl) as Hz.
  destruct (Byte.of_N (Z.to_N (z mod 256))) as [b|] eqn:E.
  - apply Byte.to_of_N in E. rewrite E. lia.
  - apply Byte.of_N_None_iff in E. lia.
Qed.

Lemma Z_of_byte_range b : 0 <= Buf.Z_of_byte b < 256.
Proof. unfold Buf.Z_of_byte. pose proof (Byte.to_N_bounded b). lia. Qed.

Lemma le32_value v :
  0 <= v < 2^32 ->
  v mod 256 + 2^8 * ((v / 2^8) mod 256) + 2^16 * ((v / 2^16) mod 256)
    + 2^24 * ((v / 2^24) mod 256) = v.
Proof.
  intros Hv.
  assert (H24 : (v / 2^24) mod 256 = v / 2^24).
  { apply Z.mod_small. split; [apply Z.div_pos; lia|].
    apply Z.div_lt_upper_bound; lia. }
  rewrite H24.
  assert (E1 : v / 2^16 = 256 * (v / 2^24) + (v / 2^16) mod 256).
  { rewrite (Z.div_mod (v / 2^16) 256) at 1 by lia.
    rewrite Z.div_div by lia. reflexivity. }
  assert (E2 : v / 2^8 = 256 * (v / 2^16) + (v / 2^8) mod 256).
  { rewrite (Z.div_mod (v / 2^8) 256) at 1 by lia.
    rewrite Z.div_div by lia. reflexivity. }
  assert (E3 : v = 256 * (v / 2^8) + v mod 256).
  { apply (Z.div_mod v 256). lia. }
  lia.
Qed.

Lemma read_le32 v (rest : Buffer) :
  0 <= v < 2^32 -> Buf.readUInt32LE 0 (Buf.le32 v ++ rest) = Some v.
Proof.
  intros Hv. unfold Buf.readUInt32LE, Buf.le32. simpl.
  rewrite !Z_of_byte_of_Z. f_equal. apply (le32_value v Hv).
Qed.

(** ** Which child [isLeftNode] selects *)

Lemma rem2_eqb_odd x : (Z.rem x 2 =? 0) = negb (Z.odd x).
Proof.
  rewrite <- Z.negb_even. rewrite Bool.negb_involutive.
  destruct (Z.even x) eqn:E.
  - apply Z.eqb_eq. apply Z.even_spec in E. destruct E as [y ->].
    rewrite Z.mul_comm. apply Z.rem_mul. lia.
  - apply Z.eqb_neq. intros H. apply Z.rem_divide in H; [|lia].
    destruct H as [y ->]. rewrite Z.even_mul in E. simpl in E.
    rewrite Bool.orb_true_r in E. discriminate.
Qed.

Lemma isLeftNode_testbit i k :
  0 <= k -> isLeftNode i (k + 1) = negb (Z.testbit i k).
Proof.
  intros Hk. unfold isLeftNode.
  replace (1 <=? k + 1) with true by (symmetry; apply Z.leb_le; lia).
  replace (k + 1 - 1) with k by lia.
  rewrite rem2_eqb_odd, Z.testbit_odd, Z.shiftr_div_pow2 by lia. reflexivity.
Qed.

Lemma isLeftNode_low i layer : layer <= 0 -> isLeftNode i layer = true.
Proof.
  intros Hl. unfold isLeftNode.
  replace (1 <=? layer) with false by (symmetry; apply Z.leb_gt; lia).
  rewrite rem2_eqb_odd. replace (1 - layer) with (Z.succ (- layer)) by lia.
  rewrite Z.pow_succ_r by lia. rewrite Z.odd_mul, Z.odd_mul. simpl.
  rewrite Bool.andb_false_r. reflexivity.
Qed.


(** ** Running the monad *)

Lemma bind_Ok {A B} (m : M A) (k : A -> M B) s a s' :
  m s = Ok a s' -> bind m k s = k a s'.
Proof. intros H. unfold bind. rewrite H. reflexivity. Qed.

Lemma db_get_or_empty_run k s :
  db_get_or_empty k s =
  Ok (match data s !! k with Some v => v | None => Buf.alloc 0 end)
     (mkStore (data s) (log s ++ [Get k (data s !! k)])).
Proof. unfold db_get_or_empty, db_get, bind, ret. destruct (data s !! k); reflexivity. Qed.

Lemma replay_app evs1 evs2 db :
  replay (evs1 ++ evs2) db = replay evs2 (replay evs1 db).
Proof. unfold replay. apply fold_left_app. Qed.

Lemma replay_lookup_inv evs : forall db k c,
  replay evs db !! k = Some c -> db !! k = Some c \/ In (Put k c) evs.
Proof.
  induction evs as [|ev evs IH]; intros db k c H; [left; exact H|].
  simpl in H. apply IH in H. destruct H as [H|H]; [|right; right; exact H].
  destruct ev as [k' f|k' c']; [left; exact H|].
  destruct (decide (k' = k)) as [->|Hne].
  - rewrite lookup_insert_eq in H. injection H as ->. right. left. reflexivity.
  - rewrite lookup_insert_ne in H by exact Hne. left. exact H.
Qed.

Lemma replay_lookup evs : forall db k c,
  (forall c', In (Put k c') evs -> c' = c) ->
  db !! k = Some c \/ In (Put k c) evs ->
  replay evs db !! k = Some c.
Proof.
  induction evs as [|ev evs IH]; intros db k c Hsame H.
  - destruct H as [H|[]]. exact H.
  - simpl. apply IH; [intros c' Hc'; apply Hsame; right; exact Hc'|].
    destruct ev as [k' f|k' c'].
    + destruct H as [H|[H|H]]; [left; exact H|discriminate H|right; exact H].
    + destruct (decide (k' = k)) as [->|Hne].
      * left. rewrite lookup_insert_eq. f_equal. apply Hsame. left. reflexivity.
      * rewrite lookup_insert_ne by exact Hne.
        destruct H as [H|[H|H]]; [left; exact H| |right; exact H].
        injection H as -> _. contradiction.
Qed.

Lemma replay_lookup_None evs : forall db k,
  (forall c, ~ In (Put k c) evs) -> db !! k = None -> replay evs db !! k = None.
Proof.
  intros db k Hno Hdb. destruct (replay evs db !! k) as [c|] eqn:E; [|reflexivity].
  apply replay_lookup_inv in E. destruct E as [E|E]; [congruence|].
  exfalso. exact (Hno c E).
Qed.

(** The hasher returns 32 bytes, as SHA-256 does. *)
Hypothesis hash_length : forall v, length (hash v) = 32%nat.
Hypothesis compress_length : forall a b, length (compress a b) = 32%nat.

(** *** Shape of the ideal trees *)

Lemma perfect_height t : forall n, perfect n t -> height t = n.
Proof.
  induction t as [h|l IHl r IHr]; intros [|n] H; simpl in *; try contradiction.
  - reflexivity.
  - f_equal. apply IHl. apply H.
Qed.

Lemma thash_length t : forall n, perfect n t -> length (thash t) = 32%nat.
Proof. destruct t; intros [|n] H; simpl in *; try contradiction; auto. Qed.

Lemma height_upd i x t : height (upd i x t) = height t.
Proof.
  induction t as [h|l IHl r IHr]; simpl; [reflexivity|].
  destruct (Z.testbit i (Z.of_nat (height l))); simpl; congruence.
Qed.

Lemma perfect_upd i x t : forall n,
  length x = 32%nat -> perfect n t -> perfect n (upd i x t).
Proof.
  induction t as [h|l IHl r IHr]; intros [|n] Hx H; simpl in *; try contradiction.
  - exact Hx.
  - destruct H as [Hl Hr].
    destruct (Z.testbit i (Z.of_nat (height l))); simpl; split; auto.
Qed.

Lemma perfect_default n : perfect n (default_tree n).
Proof. induction n; simpl; [apply hash_length|split; assumption]. Qed.

Lemma subtrees_self t : In t (subtrees t).
Proof. destruct t; left; reflexivity. Qed.

Lemma subtrees_trans t : forall s u, In s (subtrees t) -> In u (subtrees s) -> In u (subtrees t).
Proof.
  induction t as [h|l IHl r IHr]; intros s u Hs Hu.
  - destruct Hs as [<-|[]]. exact Hu.
  - destruct Hs as [<-|Hs]; [exact Hu|]. right.
    apply in_app_or in Hs. apply in_or_app.
    destruct Hs as [Hs|Hs]; [left; eapply IHl|right; eapply IHr]; eassumption.
Qed.

Lemma in_universe U t s : In t U -> In s (subtrees t) -> In s (flat_map subtrees U).
Proof. intros Ht Hs. apply in_flat_map. exists t. split; assumption. Qed.

(** *** The metadata record *)

Lemma copy_root (r : Buffer) :
  length r = 32%nat -> Buf.copy r (Buf.alloc 40) = r ++ Buf.alloc 8.
Proof.
  intros Hr. unfold Buf.copy. rewrite alloc_length, Hr.
  rewrite firstn_all2 by lia. reflexivity.
Qed.

Lemma writeMetaData_ok (T : MerkleTree) s :
  length (root T) = 32%nat -> 0 <= depth T < 2^32 ->
  writeMetaData T s =
  Ok tt (mkStore (<[name T := metadata (root T) (depth T)]> (data s))
                 (log s ++ [Put (name T) (metadata (root T) (depth T))])).
Proof.
  intros Hr Hd. unfold writeMetaData. rewrite copy_root by exact Hr.
  unfold Buf.writeUInt32LE.
  rewrite bool_decide_eq_true_2 by exact Hd.
  rewrite bool_decide_eq_true_2 by (rewrite length_app, alloc_length; lia).
  simpl andb. cbv iota.
  rewrite (take_app_length' (root T) (Buf.alloc 8) 32 (eq_sym Hr)).
  replace (32 + 4)%nat with (32 + 4)%nat by reflexivity.
  rewrite drop_app_ge by lia. rewrite Hr. reflexivity.
Qed.

Lemma metadata_length r d : length r = 32%nat -> length (metadata r d) = 40%nat.
Proof. intros Hr. unfold metadata. rewrite length_app, Hr. reflexivity. Qed.

Lemma metadata_root r d : length r = 32%nat -> Buf.slice 0 32 (metadata r d) = r.
Proof. intros Hr. unfold metadata. apply slice_left. exact Hr. Qed.

Lemma metadata_depth r d :
  length r = 32%nat -> 0 <= d < 2^32 -> Buf.readUInt32LE 32 (metadata r d) = Some d.
Proof.
  intros Hr Hd. unfold metadata, Buf.readUInt32LE.
  rewrite (drop_app_length' r _ 32 (eq_sym Hr)).
  exact (read_le32 d (Buf.alloc 4) Hd).
Qed.

(** *** One descent and the way back *)

Lemma updateElementRecursively_ok i v t : forall n fuel T s,
  perfect n t -> present (data s) t ->
  (forall h, In (Leaf h) (subtrees t) -> data s !! h = None) ->
  (n < fuel)%nat ->
  updateElementRecursively fuel T (thash t) i v (Z.of_nat n) s =
  Ok (thash (upd i (hash v) t))
     (mkStore (replay (ascent i (upd i (hash v) t)) (data s))
              (log s ++ descent i t ++ ascent i (upd i (hash v) t))).
Proof.
  induction t as [h|l IHl r IHr]; intros n fuel T s Hp Hpres Hleaf Hfuel;
    destruct n as [|n]; simpl in Hp; try contradiction;
    (destruct fuel as [|fuel]; [lia|]).
  - simpl. erewrite bind_Ok by apply db_get_or_empty_run.
    rewrite (Hleaf h) by (left; reflexivity). simpl.
    reflexivity.
  - destruct Hp as [Hpl Hpr]. destruct Hpres as [Hrec [Hprl Hprr]].
    pose proof (thash_length l n Hpl) as Hll.
    pose proof (thash_length r n Hpr) as Hlr.
    pose proof (perfect_height l n Hpl) as Hhl.
    cbn [updateElementRecursively].
    erewrite bind_Ok by apply db_get_or_empty_run.
    cbn [thash]. rewrite Hrec.
    rewrite bool_decide_eq_false_2 by (rewrite length_app; lia).
    rewrite bool_decide_eq_true_2 by (rewrite length_app; lia).
    rewrite slice_left, slice_right by assumption.
    rewrite Nat2Z.inj_succ, <- Z.add_1_r.
    rewrite isLeftNode_testbit by lia.
    replace (Z.of_nat n + 1 - 1) with (Z.of_nat n) by lia.
    cbn [upd descent ascent]. rewrite Hhl.
    destruct (Z.testbit i (Z.of_nat n)) eqn:Hbit; cbn [negb].
    + erewrite bind_Ok; cycle 1.
      { apply (IHr n fuel T); [exact Hpr|exact Hprr| |lia].
        intros h Hh. apply Hleaf. right. apply in_or_app. right. exact Hh. }
      cbn [ascent thash]. rewrite Hhl, Hbit.
      unfold bind, db_put, ret. cbn [data log].
      rewrite replay_app. cbn [replay fold_left].
      f_equal. f_equal. rewrite <- !app_assoc. reflexivity.
    + erewrite bind_Ok; cycle 1.
      { apply (IHl n fuel T); [exact Hpl|exact Hprl| |lia].
        intros h Hh. apply Hleaf. right. apply in_or_app. left. exact Hh. }
      cbn [ascent thash].
      rewrite height_upd, Hhl, Hbit.
      unfold bind, db_put, ret. cbn [data log].
      rewrite replay_app. cbn [replay fold_left].
      f_equal. f_equal. rewrite <- !app_assoc. reflexivity.
Qed.

(** *** Nodes of an updated tree and the records written for them *)

Lemma ascent_node i t : forall k c,
  In (Put k c) (ascent i t) ->
  exists l r, In (Node l r) (subtrees t) /\
    k = compress (thash l) (thash r) /\ c = thash l ++ thash r.
Proof.
  induction t as [h|l IHl r IHr]; intros k c H; simpl in H; [contradiction|].
  apply in_app_or in H. destruct H as [H|[H|[]]].
  - destruct (Z.testbit i (Z.of_nat (height l)));
      [apply IHr in H|apply IHl in H];
      destruct H as (l' & r' & Hin & Hk & Hc); exists l', r';
      (split; [|split; assumption]); right; apply in_or_app; auto.
  - injection H as <- <-. exists l, r. split; [left; reflexivity|split; reflexivity].
Qed.

Lemma ascent_no_get i t k f : ~ In (Get k f) (ascent i t).
Proof.
  induction t as [h|l IHl r IHr]; simpl; [tauto|].
  intros H. apply in_app_or in H. destruct H as [H|[H|[]]]; [|discriminate H].
  destruct (Z.testbit i (Z.of_nat (height l))); tauto.
Qed.

(** A node of the updated tree is a node of the old tree or is written. *)
Lemma upd_node i x t : forall l r,
  In (Node l r) (subtrees (upd i x t)) ->
  In (Node l r) (subtrees t) \/
  In (Put (compress (thash l) (thash r)) (thash l ++ thash r)) (ascent i (upd i x t)).
Proof.
  induction t as [h|tl IHl tr IHr]; intros l r H; simpl in H.
  - destruct H as [H|[]]. discriminate H.
  - simpl. destruct (Z.testbit i (Z.of_nat (height tl))) eqn:Hbit.
    + simpl in H. simpl. rewrite Hbit.
      destruct H as [H|H].
      * injection H as <- <-. right. apply in_or_app. right. left. reflexivity.
      * apply in_app_or in H. destruct H as [H|H].
        -- left. right. apply in_or_app. left. exact H.
        -- apply IHr in H. destruct H as [H|H].
           ++ left. right. apply in_or_app. right. exact H.
           ++ right. apply in_or_app. left. exact H.
    + simpl in H. simpl. rewrite height_upd, Hbit.
      destruct H as [H|H].
      * injection H as <- <-. right. apply in_or_app. right. left. reflexivity.
      * apply in_app_or in H. destruct H as [H|H].
        -- apply IHl in H. destruct H as [H|H].
           ++ left. right. apply in_or_app. left. exact H.
           ++ right. apply in_or_app. left. exact H.
        -- left. right. apply in_or_app. right. exact H.
Qed.

Lemma present_node db t : forall l r,
  present db t -> In (Node l r) (subtrees t) ->
  db !! compress (thash l) (thash r) = Some (thash l ++ thash r).
Proof.
  induction t as [h|tl IHl tr IHr]; intros l r Hp H; simpl in H.
  - destruct H as [H|[]]. discriminate H.
  - destruct Hp as (Hrec & Hl & Hr). destruct H as [H|H].
    + injection H as <- <-. exact Hrec.
    + apply in_app_or in H. destruct H as [H|H]; auto.
Qed.

Lemma present_intro db t :
  (forall l r, In (Node l r) (subtrees t) ->
     db !! compress (thash l) (thash r) = Some (thash l ++ thash r)) ->
  present db t.
Proof.
  induction t as [h|tl IHl tr IHr]; intros H; simpl; [exact I|].
  split; [apply H; left; reflexivity|].
  split; [apply IHl|apply IHr]; intros l r Hin; apply H; right; apply in_or_app; auto.
Qed.

(** *** What freedom from collisions gives *)

(** Freedom from collisions keeps leaves and nodes apart: no leaf hash is
    the key of a node. The code needs this, because it tells a leaf from a
    node only by whether the store has a record under the hash. Where
    [compress l r] is [hash (l ++ r)] this is a condition on the values
    written and not on the hash function: it rules out the leaf value
    [l ++ r] for every node with the children [l] and [r]. *)
Lemma leaf_not_node U nm h l r :
  collision_free U nm ->
  In (Leaf h) (flat_map subtrees U) -> In (Node l r) (flat_map subtrees U) ->
  h <> compress (thash l) (thash r).
Proof.
  intros [Hinj _] Hh Hn E.
  assert (H : Leaf h = Node l r) by (apply Hinj; assumption). discriminate H.
Qed.

Lemma leaf_absent U nm db t h :
  collision_free U nm -> only_records U nm db -> In t U ->
  In (Leaf h) (subtrees t) -> db !! h = None.
Proof.
  intros [Hinj Hnm] Honly Ht Hh.
  destruct (db !! h) as [c|] eqn:E; [|reflexivity]. exfalso.
  pose proof (in_universe U t _ Ht Hh) as HU.
  apply Honly in E. destruct E as [E|(l & r & Hin & Hk & _)].
  - apply (Hnm _ HU). exact E.
  - assert (Leaf h = Node l r) by (apply Hinj; assumption). discriminate.
Qed.

Lemma present_replay U nm db evs t :
  collision_free U nm -> In t U ->
  (forall l r, In (Node l r) (subtrees t) ->
     db !! compress (thash l) (thash r) = Some (thash l ++ thash r) \/
     In (Put (compress (thash l) (thash r)) (thash l ++ thash r)) evs) ->
  (forall k c, In (Put k c) evs ->
     k = nm \/ exists l r, In (Node l r) (flat_map subtrees U) /\
       k = compress (thash l) (thash r) /\ c = thash l ++ thash r) ->
  present (replay evs db) t.
Proof.
  intros [Hinj Hnm] Ht Hsrc Hevs. apply present_intro. intros l r Hin.
  pose proof (in_universe U t _ Ht Hin) as HU.
  apply replay_lookup; [|apply Hsrc; exact Hin].
  intros c' Hc'. apply Hevs in Hc'. destruct Hc' as [E|(l' & r' & Hin' & Hk & ->)].
  - exfalso. apply (Hnm _ HU). exact E.
  - assert (E : Node l r = Node l' r') by (apply Hinj; assumption).
    injection E as -> ->. reflexivity.
Qed.

Lemma only_records_replay U nm db evs :
  only_records U nm db ->
  (forall k c, In (Put k c) evs ->
     k = nm \/ exists l r, In (Node l r) (flat_map subtrees U) /\
       k = compress (thash l) (thash r) /\ c = thash l ++ thash r) ->
  only_records U nm (replay evs db).
Proof.
  intros Honly Hevs k c H. apply replay_lookup_inv in H.
  destruct H as [H|H]; [apply Honly in H; exact H|apply Hevs in H; exact H].
Qed.

(** *** One update keeps the invariant *)

Lemma updateElement_ok U n t T s fuel i v :
  collision_free U (name T) -> Inv U n t T s ->
  In (upd i (hash v) t) U -> (n < fuel)%nat ->
  let t' := upd i (hash v) t in
  let T' := mkTree (name T) (depth T) (thash t') in
  let evs := ascent i t' ++ [Put (name T) (metadata (thash t') (depth T))] in
  let s' := mkStore (replay evs (data s)) (log s ++ descent i t ++ evs) in
  updateElement fuel T i v s = Ok T' s' /\ Inv U n t' T' s'.
Proof.
  intros Hcf (Hd & Hn & Hp & Hroot & HtU & Hpres & Honly) Ht'U Hfuel t' T' evs s'.
  assert (Hp' : perfect n t') by (apply perfect_upd; [apply hash_length|exact Hp]).
  assert (Hevs : forall k c, In (Put k c) evs ->
            k = name T \/ exists l r, In (Node l r) (flat_map subtrees U) /\
              k = compress (thash l) (thash r) /\ c = thash l ++ thash r).
  { intros k c H. apply in_app_or in H. destruct H as [H|[H|[]]].
    - right. apply ascent_node in H. destruct H as (l & r & Hin & Hk & Hc).
      exists l, r. split; [|split; assumption].
      apply (in_universe U t'); assumption.
    - injection H as <- _. left. reflexivity. }
  split.
  - unfold updateElement. rewrite Hroot, Hd.
    erewrite bind_Ok; cycle 1.
    { apply updateElementRecursively_ok; [exact Hp|exact Hpres| |exact Hfuel].
      intros h Hh. apply (leaf_absent U (name T) _ t); assumption. }
    erewrite bind_Ok; cycle 1.
    { apply writeMetaData_ok; cbn [root depth].
      - apply (thash_length _ n). exact Hp'.
      - lia. }
    unfold ret. cbn [name root depth data log]. rewrite <- Hd.
    f_equal. unfold s', evs. rewrite replay_app. cbn [replay fold_left].
    f_equal. rewrite <- !app_assoc. reflexivity.
  - unfold Inv. cbn [name root depth data log].
    repeat split; try assumption; try reflexivity.
    + eapply present_replay; [exact Hcf|exact Ht'U| |exact Hevs].
      intros l r Hin. apply upd_node in Hin. destruct Hin as [Hin|Hin].
      * left. eapply present_node; eassumption.
      * right. apply in_or_app. left. exact Hin.
    + apply only_records_replay; assumption.
Qed.

(** *** A sequence of updates *)

Lemma tree_after_cons t i v ops :
  tree_after t ((i, v) :: ops) = tree_after (upd i (hash v) t) ops.
Proof. reflexivity. Qed.

Lemma trees_of_head t ops : In t (trees_of t ops).
Proof. destruct ops as [|[i v] ops]; left; reflexivity. Qed.

Lemma updateElements_ok U n fuel ops : forall t T s,
  collision_free U (name T) -> Inv U n t T s ->
  (forall u, In u (trees_of t ops) -> In u U) -> (n < fuel)%nat ->
  exists T' s',
    updateElements fuel T ops s = Ok T' s' /\
    Inv U n (tree_after t ops) T' s' /\ name T' = name T.
Proof.
  induction ops as [|[i v] ops IH]; intros t T s Hcf HI HU Hfuel.
  - exists T, s. split; [reflexivity|split; [exact HI|reflexivity]].
  - assert (Ht' : In (upd i (hash v) t) U).
    { apply HU. right. apply trees_of_head. }
    destruct (updateElement_ok U n t T s fuel i v Hcf HI Ht' Hfuel) as [Hrun HI'].
    cbn zeta in Hrun, HI'.
    specialize (fun Hc => IH _ _ _ Hc HI').
    destruct IH as (T' & s' & Hrun' & HI'' & Hname); [exact Hcf| |exact Hfuel|].
    { intros u Hu. apply HU. right. exact Hu. }
    exists T', s'. split; [|split; assumption].
    cbn [updateElements]. erewrite bind_Ok by exact Hrun. exact Hrun'.
Qed.

(** *** Opening a tree *)

Lemma thash_default n : thash (default_tree n) = default_node n.
Proof. induction n; simpl; [reflexivity|]. rewrite IHn. reflexivity. Qed.

Lemma default_node_length n : length (default_node n) = 32%nat.
Proof. destruct n; simpl; [apply hash_length|apply compress_length]. Qed.

Lemma createEmptyTree_loop_ok n : forall j s,
  createEmptyTree_loop n (default_node j) s =
  Ok (default_node (j + n))
     (mkStore (replay (default_writes j n) (data s)) (log s ++ default_writes j n)).
Proof.
  induction n as [|n IH]; intros j s.
  - simpl. unfold ret, default_writes. simpl. rewrite Nat.add_0_r, app_nil_r.
    destruct s; reflexivity.
  - cbn [createEmptyTree_loop]. unfold bind at 1. unfold db_put.
    change (compress (default_node j) (default_node j)) with (default_node (S j)).
    rewrite IH. cbn [data log]. unfold default_writes. cbn [seq map replay fold_left].
    rewrite <- app_assoc. replace (S j + n)%nat with (j + S n)%nat by lia.
    reflexivity.
Qed.

Lemma new_fresh nm d s :
  1 <= d <= 32 -> data s !! nm = None ->
  let r := default_node (Z.to_nat d) in
  let evs := default_writes 0 (Z.to_nat d) ++ [Put nm (metadata r d)] in
  new nm d s =
  Ok (mkTree nm d r) (mkStore (replay evs (data s)) (log s ++ Get nm None :: evs)).
Proof.
  intros Hd Hnm r evs. unfold new, db_get. unfold bind at 1. rewrite Hnm.
  unfold construct, MAX_DEPTH.
  replace (1 <=? d) with true by (symmetry; apply Z.leb_le; lia).
  replace (d <=? 32) with true by (symmetry; apply Z.leb_le; lia).
  cbn [andb negb]. unfold bind at 1, ret at 1. unfold createEmptyTree.
  cbn [name depth root].
  erewrite bind_Ok by apply (createEmptyTree_loop_ok (Z.to_nat d) 0).
  cbn [Nat.add].
  erewrite bind_Ok; cycle 1.
  { apply writeMetaData_ok; cbn [root depth]; [apply default_node_length|lia]. }
  unfold ret. cbn [name root depth data log]. f_equal. unfold evs, r.
  rewrite replay_app. cbn [replay fold_left]. f_equal.
  rewrite <- !app_assoc. reflexivity.
Qed.

Lemma default_tree_node n : forall l r,
  In (Node l r) (subtrees (default_tree n)) ->
  exists k, (k < n)%nat /\ l = default_tree k /\ r = default_tree k.
Proof.
  induction n as [|n IH]; intros l r H; simpl in H.
  - destruct H as [H|[]]. discriminate H.
  - destruct H as [H|H].
    + injection H as <- <-. exists n. split; [lia|split; reflexivity].
    + apply in_app_or in H. assert (H' : In (Node l r) (subtrees (default_tree n))) by tauto.
      apply IH in H'. destruct H' as (k & Hk & Hl & Hr). exists k. split; [lia|tauto].
Qed.

Lemma default_tree_sub n k : (k <= n)%nat -> In (default_tree k) (subtrees (default_tree n)).
Proof.
  induction n as [|n IH]; intros Hk.
  - replace k with 0%nat by lia. left. reflexivity.
  - destruct (Nat.eq_dec k (S n)) as [->|Hne]; [apply subtrees_self|].
    simpl. right. apply in_or_app. left. apply IH. lia.
Qed.

Lemma default_writes_in j n k c :
  In (Put k c) (default_writes j n) ->
  exists m, (j <= m < j + n)%nat /\ k = default_node (S m) /\ c = default_node m ++ default_node m.
Proof.
  unfold default_writes. intros H. apply in_map_iff in H.
  destruct H as (m & Hm & Hin). apply in_seq in Hin. injection Hm as <- <-.
  exists m. split; [lia|split; reflexivity].
Qed.

Lemma new_Inv U nm n :
  (1 <= n <= 32)%nat -> collision_free U nm -> In (default_tree n) U ->
  exists T s,
    new nm (Z.of_nat n) empty_store = Ok T s /\
    Inv U n (default_tree n) T s /\ name T = nm.
Proof.
  intros Hn Hcf HU.
  pose proof (new_fresh nm (Z.of_nat n) empty_store) as Hnew.
  cbn zeta in Hnew. rewrite Nat2Z.id in Hnew.
  eexists _, _. split; [apply Hnew; [lia|reflexivity]|].
  split; [|reflexivity].
  assert (Hevs : forall k c,
            In (Put k c) (default_writes 0 n ++ [Put nm (metadata (default_node n) (Z.of_nat n))]) ->
            k = nm \/ exists l r, In (Node l r) (flat_map subtrees U) /\
              k = compress (thash l) (thash r) /\ c = thash l ++ thash r).
  { intros k c H. apply in_app_or in H. destruct H as [H|[H|[]]].
    - right. apply default_writes_in in H. destruct H as (m & Hm & -> & ->).
      exists (default_tree m), (default_tree m). rewrite thash_default.
      split; [|split; reflexivity].
      apply (in_universe U (default_tree n)); [exact HU|].
      apply (default_tree_sub n (S m)). lia.
    - injection H as <- _. left. reflexivity. }
  unfold Inv. cbn [name depth root data log empty_store].
  repeat split; try lia; try assumption.
  - apply perfect_default.
  - symmetry. apply thash_default.
  - eapply present_replay; [exact Hcf|exact HU| |exact Hevs].
    intros l r Hin. right. apply default_tree_node in Hin.
    destruct Hin as (k & Hk & -> & ->). apply in_or_app. left.
    unfold default_writes. apply in_map_iff. exists k. rewrite thash_default.
    split; [reflexivity|]. apply in_seq. lia.
  - apply only_records_replay; [|exact Hevs].
    intros k c H. rewrite lookup_empty in H. discriminate H.
Qed.

Lemma session_ok U nm n fuel ops :
  (1 <= n <= 32)%nat -> (n < fuel)%nat -> collision_free U nm ->
  (forall u, In u (trees_of (default_tree n) ops) -> In u U) ->
  exists T s,
    session fuel nm (Z.of_nat n) ops empty_store = Ok T s /\
    Inv U n (tree_after (default_tree n) ops) T s /\ name T = nm.
Proof.
  intros Hn Hfuel Hcf HU.
  destruct (new_Inv U nm n Hn Hcf) as (T0 & s0 & Hnew & HI0 & Hname0).
  { apply HU. apply trees_of_head. }
  destruct (updateElements_ok U n fuel ops (default_tree n) T0 s0)
    as (T & s & Hrun & HI & Hname);
    [rewrite Hname0; exact Hcf|exact HI0|exact HU|exact Hfuel|].
  exists T, s. split; [|split; [exact HI|congruence]].
  unfold session. erewrite bind_Ok by exact Hnew. exact Hrun.
Qed.

(** *** The hash path *)

Lemma getHashPath_loop_ok i t : forall n acc s,
  perfect n t -> present (data s) t ->
  getHashPath_loop n i acc (thash t) (Z.of_nat n) s =
  Ok (acc ++ pairs_down i t) (mkStore (data s) (log s ++ walk i t)).
Proof.
  induction t as [h|l IHl r IHr]; intros n acc s Hp Hpres;
    destruct n as [|n]; simpl in Hp; try contradiction.
  - simpl. unfold ret. rewrite !app_nil_r. destruct s; reflexivity.
  - destruct Hp as [Hpl Hpr]. destruct Hpres as [Hrec [Hprl Hprr]].
    pose proof (thash_length l n Hpl) as Hll.
    pose proof (thash_length r n Hpr) as Hlr.
    pose proof (perfect_height l n Hpl) as Hhl.
    cbn [getHashPath_loop].
    erewrite bind_Ok by apply db_get_or_empty_run.
    cbn [thash data log]. rewrite Hrec.
    rewrite bool_decide_eq_true_2 by (rewrite length_app; lia).
    rewrite slice_left, slice_right by assumption.
    rewrite Nat2Z.inj_succ, <- Z.add_1_r.
    rewrite isLeftNode_testbit by lia.
    replace (Z.of_nat n + 1 - 1) with (Z.of_nat n) by lia.
    cbn [pairs_down walk thash]. rewrite Hhl.
    destruct (Z.testbit i (Z.of_nat n)); cbn [negb].
    + rewrite (IHr n) by assumption. cbn [data log].
      rewrite <- !app_assoc. reflexivity.
    + rewrite (IHl n) by assumption. cbn [data log].
      rewrite <- !app_assoc. reflexivity.
Qed.

Lemma getHashPath_ok U n t T s i :
  Inv U n t T s ->
  getHashPath T i s =
  Ok (rev (pairs_down i t)) (mkStore (data s) (log s ++ walk i t)).
Proof.
  intros (Hd & Hn & Hp & Hroot & HtU & Hpres & Honly).
  unfold getHashPath. rewrite Hroot, Hd, Nat2Z.id.
  erewrite bind_Ok by (apply getHashPath_loop_ok; eassumption).
  reflexivity.
Qed.

Lemma pairs_down_length i t : forall n,
  perfect n t -> length (pairs_down i t) = n.
Proof.
  induction t as [h|l IHl r IHr]; intros [|n] Hp; simpl in *; try contradiction.
  - reflexivity.
  - f_equal. destruct Hp as [Hpl Hpr].
    destruct (Z.testbit i (Z.of_nat (height l))); auto.
Qed.

Lemma recompute_app i p1 : forall k cur p2,
  recompute k i cur (p1 ++ p2) =
  recompute (k + Z.of_nat (length p1)) i (recompute k i cur p1) p2.
Proof.
  induction p1 as [|[l r] p1 IH]; intros k cur p2; simpl length.
  - simpl. rewrite Z.add_0_r. reflexivity.
  - cbn [app recompute]. rewrite IH. f_equal. lia.
Qed.

Lemma recompute_path i t : forall n,
  perfect n t ->
  recompute 0 i (thash (node_at 0 i t)) (rev (pairs_down i t)) = thash t.
Proof.
  induction t as [h|l IHl r IHr]; intros [|n] Hp; simpl in Hp; try contradiction.
  - reflexivity.
  - destruct Hp as [Hpl Hpr].
    pose proof (perfect_height l n Hpl) as Hhl.
    cbn [node_at pairs_down height rev thash]. cbn [Nat.leb]. rewrite Hhl.
    rewrite recompute_app, length_rev. cbn [recompute]. rewrite Z.add_0_l.
    destruct (Z.testbit i (Z.of_nat n)) eqn:Hbit.
    + rewrite (pairs_down_length i r n Hpr), Hbit. rewrite (IHr n Hpr). reflexivity.
    + rewrite (pairs_down_length i l n Hpl), Hbit. rewrite (IHl n Hpl). reflexivity.
Qed.

Lemma node_at_0_upd i x t : forall n,
  perfect n t -> node_at 0 i (upd i x t) = Leaf x.
Proof.
  induction t as [h|l IHl r IHr]; intros [|n] Hp; simpl in Hp; try contradiction.
  - reflexivity.
  - destruct Hp as [Hpl Hpr]. cbn [upd].
    destruct (Z.testbit i (Z.of_nat (height l))) eqn:Hbit;
      cbn [node_at height Nat.leb]; rewrite ?height_upd, Hbit; eauto.
Qed.


(** *** Updates at different indices *)

Lemma mod_pow2_succ a n :
  0 <= n -> a mod 2 ^ (n + 1) = a mod 2 ^ n + 2 ^ n * Z.b2z (Z.testbit a n).
Proof.
  intros Hn. rewrite Z.pow_add_r by lia. change (2 ^ 1) with 2.
  rewrite Z.rem_mul_r by lia. rewrite Z.testbit_spec' by lia. reflexivity.
Qed.

Lemma upd_comm i1 x1 i2 x2 t : forall n,
  perfect n t -> i1 mod 2 ^ Z.of_nat n <> i2 mod 2 ^ Z.of_nat n ->
  upd i1 x1 (upd i2 x2 t) = upd i2 x2 (upd i1 x1 t).
Proof.
  induction t as [h|l IHl r IHr]; intros [|n] Hp Hne; simpl in Hp; try contradiction.
  - exfalso. apply Hne. simpl. rewrite !Z.mod_1_r. reflexivity.
  - destruct Hp as [Hpl Hpr].
    pose proof (perfect_height l n Hpl) as Hhl.
    rewrite Nat2Z.inj_succ, <- Z.add_1_r in Hne.
    rewrite !mod_pow2_succ in Hne by lia.
    cbn [upd]. rewrite Hhl.
    destruct (Z.testbit i1 (Z.of_nat n)) eqn:Hb1,
             (Z.testbit i2 (Z.of_nat n)) eqn:Hb2;
      cbn [upd]; rewrite ?height_upd, ?Hhl, ?Hb1, ?Hb2.
    + f_equal. apply (IHr n Hpr). intros E. apply Hne. rewrite E. reflexivity.
    + reflexivity.
    + reflexivity.
    + f_equal. apply (IHl n Hpl). intros E. apply Hne. rewrite E. reflexivity.
Qed.

Lemma tree_after_app t ops1 ops2 :
  tree_after t (ops1 ++ ops2) = tree_after (tree_after t ops1) ops2.
Proof. unfold tree_after. apply fold_left_app. Qed.

Lemma perfect_tree_after n ops : forall t,
  perfect n t -> perfect n (tree_after t ops).
Proof.
  induction ops as [|[i v] ops IH]; intros t Hp; [exact Hp|].
  rewrite tree_after_cons. apply IH. apply perfect_upd; [apply hash_length|exact Hp].
Qed.

Lemma trees_of_last t ops : In (tree_after t ops) (trees_of t ops).
Proof.
  revert t. induction ops as [|[i v] ops IH]; intros t; [left; reflexivity|].
  right. rewrite tree_after_cons. apply IH.
Qed.

(** * The claims *)

(** C5. For every depth in [1, 32], opening a tree against a store that has
    no record under the name gives a tree whose root is the hash of 64 zero
    bytes compressed with itself [depth] times. Initialisation reads the
    name once, then writes one default node per level, lowest level first,
    each under its own hash with the two equal children as its value, and
    last the metadata; the store ends up with exactly these writes applied. *)
Theorem new_empty_tree (nm : Buffer) (d : Z) (s : Store) :
  1 <= d <= 32 -> data s !! nm = None ->
  exists T s',
    new nm d s = Ok T s' /\
    name T = nm /\ depth T = d /\
    getRoot T = Nat.iter (Z.to_nat d) (fun x => compress x x) (hash (repeat x00 64)) /\
    log s' = log s ++ [Get nm None]
               ++ map (fun k => Put (default_node (S k)) (default_node k ++ default_node k))
                      (seq 0 (Z.to_nat d))
               ++ [Put nm (getRoot T ++ Buf.le32 d ++ repeat x00 4)] /\
    data s' = replay (skipn (length (log s)) (log s')) (data s).
Proof.
  intros Hd Hnm. pose proof (new_fresh nm d s Hd Hnm) as Hnew. cbn zeta in Hnew.
  eexists _, _. split; [exact Hnew|]. cbn [name depth root getRoot data log].
  repeat split.
  rewrite drop_app_length. reflexivity.
Qed.

(** C6, as amended. The record [writeMetaData] puts under the name of a
    tree with a 32-byte root is 40 bytes long: the root, then the depth as
    a little-endian 32-bit integer, then four zero bytes. Opening the name
    again, with whatever depth argument, gives back the same root and depth
    from one read of the store and no write. *)
Theorem metadata_round_trip (T : MerkleTree) (s : Store) (d0 : Z) :
  length (root T) = 32%nat -> 1 <= depth T <= 32 ->
  exists s1 record T' s2,
    writeMetaData T s = Ok tt s1 /\
    data s1 !! name T = Some record /\
    record = root T ++ Buf.le32 (depth T) ++ repeat x00 4 /\
    length record = 40%nat /\
    new (name T) d0 s1 = Ok T' s2 /\
    T' = T /\
    data s2 = data s1 /\
    log s2 = log s1 ++ [Get (name T) (Some record)].
Proof.
  intros Hr Hd.
  eexists _, (metadata (root T) (depth T)), _, _.
  split; [apply writeMetaData_ok; [exact Hr|lia]|].
  cbn [data log]. split; [apply lookup_insert_eq|].
  split; [reflexivity|]. split; [apply metadata_length; exact Hr|].
  unfold new, db_get. unfold bind at 1. cbn [data log].
  rewrite lookup_insert_eq.
  rewrite metadata_depth by (try exact Hr; lia).
  rewrite metadata_root by exact Hr.
  unfold construct, MAX_DEPTH.
  replace (1 <=? depth T) with true by (symmetry; apply Z.leb_le; lia).
  replace (depth T <=? 32) with true by (symmetry; apply Z.leb_le; lia).
  cbn [andb negb]. unfold ret.
  split; [reflexivity|]. split; [destruct T; reflexivity|].
  split; reflexivity.
Qed.

(** *** Sessions on an empty store *)

Lemma trees_of_app_incl ops1 ops2 : forall t u,
  In u (trees_of t ops1) -> In u (trees_of t (ops1 ++ ops2)).
Proof.
  induction ops1 as [|[i v] ops1 IH]; intros t u H.
  - destruct H as [<-|[]]. apply trees_of_head.
  - destruct H as [<-|H]; [left; reflexivity|]. right. apply IH. exact H.
Qed.

Lemma session_Inv U nm d fuel ops :
  1 <= d <= 32 -> (Z.to_nat d < fuel)%nat -> collision_free U nm ->
  (forall u, In u (trees_of (default_tree (Z.to_nat d)) ops) -> In u U) ->
  exists T s,
    session fuel nm d ops empty_store = Ok T s /\
    Inv U (Z.to_nat d) (tree_after (default_tree (Z.to_nat d)) ops) T s /\
    name T = nm.
Proof.
  intros Hd Hfuel Hcf HU.
  pose proof (session_ok U nm (Z.to_nat d) fuel ops) as H.
  rewrite Z2Nat.id in H by lia. apply H; try assumption. lia.
Qed.

Lemma Inv_depth U n t T s : Inv U n t T s -> depth T = Z.of_nat n.
Proof. intros H. apply H. Qed.

Lemma Inv_root U n t T s : Inv U n t T s -> root T = thash t.
Proof. intros H. apply H. Qed.

Lemma Inv_perfect U n t T s : Inv U n t T s -> perfect n t.
Proof. intros H. apply H. Qed.


(** C1, as amended. Take a tree opened on an empty store and updated any
    number of times, the last update being [updateElement(i, v)] with [i]
    in range. Provided the leaves and nodes of the trees these updates go
    through all have different hashes, none of them the name of the tree,
    [getHashPath(i)] returns a path from which the verifier, started at
    [hash(v)] and choosing the side at level [k] by bit [k] of [i],
    recomputes exactly [getRoot()]. The proviso asks more than a hash
    function without collisions: it includes that no leaf hash is the key
    of a node ([leaf_not_node]), which a leaf value [l ++ r] breaks when
    [compress l r] is [hash (l ++ r)]. *)
Theorem update_then_prove (fuel : nat) (nm : Buffer) (d : Z)
    (ops : list (Z * Buffer)) (i : Z) (v : Buffer) :
  1 <= d <= 32 -> (Z.to_nat d < fuel)%nat -> 0 <= i < 2 ^ d ->
  collision_free (trees_of (default_tree (Z.to_nat d)) (ops ++ [(i, v)])) nm ->
  exists T s path s',
    session fuel nm d (ops ++ [(i, v)]) empty_store = Ok T s /\
    getHashPath T i s = Ok path s' /\
    recompute 0 i (hash v) path = getRoot T.
Proof.
  intros Hd Hfuel Hi Hcf.
  destruct (session_Inv _ nm d fuel (ops ++ [(i, v)]) Hd Hfuel Hcf)
    as (T & s & Hrun & HI & Hname); [auto|].
  exists T, s. eexists _, _. split; [exact Hrun|].
  split; [eapply getHashPath_ok; exact HI|].
  unfold getRoot. rewrite (Inv_root _ _ _ _ _ HI).
  rewrite tree_after_app.
  set (t := tree_after (default_tree (Z.to_nat d)) ops).
  change (tree_after t [(i, v)]) with (upd i (hash v) t).
  assert (Hp : perfect (Z.to_nat d) t).
  { apply perfect_tree_after, perfect_default. }
  rewrite <- (recompute_path i (upd i (hash v) t) (Z.to_nat d)).
  - rewrite (node_at_0_upd i (hash v) t _ Hp). reflexivity.
  - apply perfect_upd; [apply hash_length|exact Hp].
Qed.


(** C7, as amended. On a tree opened on an empty store and updated any
    number of times, two further updates at different indices in range
    give the same root in either order, provided that in each order the
    leaves and nodes of the trees gone through all have different hashes,
    none of them the name of the tree. The proviso includes that no leaf
    hash is the key of a node ([leaf_not_node]): where a leaf holds the
    hash that a node gets in one of the two updates, the order decides
    whether the other update finds a record under that leaf. *)
Theorem updates_commute (fuel : nat) (nm : Buffer) (d : Z)
    (ops : list (Z * Buffer)) (i1 i2 : Z) (v1 v2 : Buffer) :
  1 <= d <= 32 -> (Z.to_nat d < fuel)%nat ->
  0 <= i1 < 2 ^ d -> 0 <= i2 < 2 ^ d -> i1 <> i2 ->
  collision_free (trees_of (default_tree (Z.to_nat d)) (ops ++ [(i1, v1); (i2, v2)])) nm ->
  collision_free (trees_of (default_tree (Z.to_nat d)) (ops ++ [(i2, v2); (i1, v1)])) nm ->
  exists T12 s12 T21 s21,
    session fuel nm d (ops ++ [(i1, v1); (i2, v2)]) empty_store = Ok T12 s12 /\
    session fuel nm d (ops ++ [(i2, v2); (i1, v1)]) empty_store = Ok T21 s21 /\
    getRoot T12 = getRoot T21.
Proof.
  intros Hd Hfuel Hi1 Hi2 Hne Hcf12 Hcf21.
  destruct (session_Inv _ nm d fuel (ops ++ [(i1, v1); (i2, v2)]) Hd Hfuel Hcf12)
    as (T12 & s12 & Hrun12 & HI12 & _); [auto|].
  destruct (session_Inv _ nm d fuel (ops ++ [(i2, v2); (i1, v1)]) Hd Hfuel Hcf21)
    as (T21 & s21 & Hrun21 & HI21 & _); [auto|].
  exists T12, s12, T21, s21. split; [exact Hrun12|]. split; [exact Hrun21|].
  unfold getRoot.
  rewrite (Inv_root _ _ _ _ _ HI12), (Inv_root _ _ _ _ _ HI21).
  rewrite !tree_after_app.
  set (t := tree_after (default_tree (Z.to_nat d)) ops).
  change (tree_after t [(i1, v1); (i2, v2)]) with (upd i2 (hash v2) (upd i1 (hash v1) t)).
  change (tree_after t [(i2, v2); (i1, v1)]) with (upd i1 (hash v1) (upd i2 (hash v2) t)).
  assert (Hp : perfect (Z.to_nat d) t).
  { apply perfect_tree_after, perfect_default. }
  f_equal. symmetry. apply (upd_comm _ _ _ _ t (Z.to_nat d) Hp).
  rewrite Z2Nat.id by lia. rewrite !Z.mod_small by lia. exact Hne.
Qed.




(** *** The calls of one descent *)

Lemma descentCalls_ok i t : forall n fuel db,
  perfect n t -> present db t ->
  (forall h, In (Leaf h) (subtrees t) -> db !! h = None) ->
  (n < fuel)%nat ->
  descentCalls fuel db (thash t) i (Z.of_nat n) = path_calls i t.
Proof.
  induction t as [h|l IHl r IHr]; intros n fuel db Hp Hpres Hleaf Hfuel;
    destruct n as [|n]; simpl in Hp; try contradiction;
    (destruct fuel as [|fuel]; [lia|]).
  - cbn [descentCalls thash path_calls height].
    rewrite (Hleaf h) by (left; reflexivity). reflexivity.
  - destruct Hp as [Hpl Hpr]. destruct Hpres as [Hrec [Hprl Hprr]].
    pose proof (thash_length l n Hpl) as Hll.
    pose proof (thash_length r n Hpr) as Hlr.
    pose proof (perfect_height l n Hpl) as Hhl.
    cbn [descentCalls thash path_calls height]. rewrite Hrec, Hhl.
    rewrite bool_decide_eq_true_2 by (rewrite length_app; lia).
    rewrite slice_left, slice_right by assumption.
    f_equal.
    rewrite Nat2Z.inj_succ, <- Z.add_1_r.
    rewrite isLeftNode_testbit by lia.
    replace (Z.of_nat n + 1 - 1) with (Z.of_nat n) by lia.
    destruct (Z.testbit i (Z.of_nat n)); cbn [negb].
    + apply IHr; [exact Hpr|exact Hprr| |lia].
      intros h Hh. apply Hleaf. right. apply in_or_app. right. exact Hh.
    + apply IHl; [exact Hpl|exact Hprl| |lia].
      intros h Hh. apply Hleaf. right. apply in_or_app. left. exact Hh.
Qed.

Lemma path_calls_events i t db : forall n,
  perfect n t -> present db t ->
  (forall h, In (Leaf h) (subtrees t) -> db !! h = None) ->
  map (fun c => Get (fst c) (db !! fst c)) (path_calls i t) = descent i t.
Proof.
  induction t as [h|l IHl r IHr]; intros [|n] Hp Hpres Hleaf; simpl in Hp;
    try contradiction.
  - cbn [path_calls map descent fst thash].
    rewrite (Hleaf h) by (left; reflexivity). reflexivity.
  - destruct Hp as [Hpl Hpr]. destruct Hpres as [Hrec [Hprl Hprr]].
    cbn [path_calls map descent fst thash]. rewrite Hrec. f_equal.
    destruct (Z.testbit i (Z.of_nat (height l))).
    + apply (IHr n); [exact Hpr|exact Hprr|].
      intros h Hh. apply Hleaf. right. apply in_or_app. right. exact Hh.
    + apply (IHl n); [exact Hpl|exact Hprl|].
      intros h Hh. apply Hleaf. right. apply in_or_app. left. exact Hh.
Qed.

Lemma path_calls_found i t db : forall n,
  perfect n t -> present db t ->
  (forall h, In (Leaf h) (subtrees t) -> db !! h = None) ->
  Forall (fun c =>
            (0 < snd c -> exists rec, db !! fst c = Some rec /\ length rec = 64%nat) /\
            (snd c <= 0 -> snd c = 0 /\ db !! fst c = None))
         (path_calls i t).
Proof.
  induction t as [h|l IHl r IHr]; intros [|n] Hp Hpres Hleaf; simpl in Hp;
    try contradiction.
  - cbn [path_calls height]. constructor; [|constructor]. cbn [fst snd thash].
    split; [intros H; change (Z.of_nat 0) with 0 in H; lia|].
    intros _. split; [reflexivity|]. apply Hleaf. left. reflexivity.
  - destruct Hp as [Hpl Hpr]. destruct Hpres as [Hrec [Hprl Hprr]].
    cbn [path_calls]. constructor.
    + cbn [fst snd thash height]. split; [|intros H; lia].
      intros _. eexists. split; [exact Hrec|].
      rewrite length_app, (thash_length l n Hpl), (thash_length r n Hpr). reflexivity.
    + destruct (Z.testbit i (Z.of_nat (height l))).
      * apply (IHr n); [exact Hpr|exact Hprr|].
        intros h Hh. apply Hleaf. right. apply in_or_app. right. exact Hh.
      * apply (IHl n); [exact Hpl|exact Hprl|].
        intros h Hh. apply Hleaf. right. apply in_or_app. left. exact Hh.
Qed.

Lemma path_calls_layers i t : forall n,
  perfect n t ->
  map snd (path_calls i t) = rev (map Z.of_nat (seq 0 (S n))).
Proof.
  induction t as [h|l IHl r IHr]; intros [|n] Hp; simpl in Hp; try contradiction.
  - reflexivity.
  - destruct Hp as [Hpl Hpr].
    pose proof (perfect_height l n Hpl) as Hhl.
    rewrite (seq_S (S n)), map_app, rev_app_distr.
    cbn [path_calls map snd height rev app Nat.add]. rewrite Hhl. f_equal.
    destruct (Z.testbit i (Z.of_nat n)); auto.
Qed.

(** C10, as amended. On a tree opened on an empty store and updated any
    number of times, the descent of one more [updateElement] calls
    [updateElementRecursively] at the layers [depth], [depth - 1], ..., 0 in
    turn, one lookup each, provided the leaves and nodes of the trees gone
    through all have different hashes, none of them the name of the tree.
    Then every call at a layer above 0 finds a 64-byte record and the call
    at layer 0 finds nothing: [hash(value)] is returned at layer 0 only,
    and the new root is the root of the tree with that hash at leaf [i].
    That the call at layer 0 finds nothing is the part of the proviso that
    keeps leaf hashes apart from the keys of nodes ([leaf_not_node]); it
    does not follow from a hash function without collisions. *)
Theorem leaf_hash_only_at_layer_0 (fuel : nat) (nm : Buffer) (d : Z)
    (ops : list (Z * Buffer)) (i : Z) (v : Buffer) :
  1 <= d <= 32 -> (Z.to_nat d < fuel)%nat -> 0 <= i < 2 ^ d ->
  collision_free (trees_of (default_tree (Z.to_nat d)) (ops ++ [(i, v)])) nm ->
  exists T s T' s',
    session fuel nm d ops empty_store = Ok T s /\
    updateElement fuel T i v s = Ok T' s' /\
    let calls := descentCalls fuel (data s) (root T) i (depth T) in
    map snd calls = rev (map Z.of_nat (seq 0 (S (Z.to_nat d)))) /\
    Forall (fun c =>
              (0 < snd c -> exists rec, data s !! fst c = Some rec /\ length rec = 64%nat) /\
              (snd c <= 0 -> snd c = 0 /\ data s !! fst c = None)) calls /\
    (exists writes,
       log s' = log s ++ map (fun c => Get (fst c) (data s !! fst c)) calls ++ writes /\
       forall k f, ~ In (Get k f) writes) /\
    getRoot T' = thash (upd i (hash v) (tree_after (default_tree (Z.to_nat d)) ops)).
Proof.
  intros Hd Hfuel Hi Hcf.
  set (U := trees_of (default_tree (Z.to_nat d)) (ops ++ [(i, v)])) in *.
  set (t := tree_after (default_tree (Z.to_nat d)) ops).
  destruct (session_Inv U nm d fuel ops Hd Hfuel Hcf)
    as (T & s & Hrun & HI & Hname).
  { intros u Hu. apply trees_of_app_incl. exact Hu. }
  fold t in HI. rewrite <- Hname in Hcf.
  assert (Ht' : In (upd i (hash v) t) U).
  { change (upd i (hash v) t) with (tree_after t [(i, v)]).
    unfold t. rewrite <- tree_after_app. apply trees_of_last. }
  destruct (updateElement_ok U _ t T s fuel i v Hcf HI Ht' Hfuel) as [Hupd _].
  cbn zeta in Hupd.
  pose proof (Inv_perfect _ _ _ _ _ HI) as Hp.
  assert (Hpres : present (data s) t) by apply HI.
  assert (Hleaf : forall h, In (Leaf h) (subtrees t) -> data s !! h = None).
  { intros h Hh. apply (leaf_absent U (name T) _ t); try assumption; apply HI. }
  exists T, s. eexists _, _. split; [exact Hrun|]. split; [exact Hupd|].
  cbn zeta. rewrite (Inv_root _ _ _ _ _ HI), (Inv_depth _ _ _ _ _ HI).
  rewrite (descentCalls_ok i t _ fuel (data s) Hp Hpres Hleaf Hfuel).
  split; [apply path_calls_layers; exact Hp|].
  split; [apply path_calls_found with (n := Z.to_nat d); assumption|].
  split; [|reflexivity].
  eexists. cbn [log]. split.
  - rewrite (path_calls_events i t (data s) _ Hp Hpres Hleaf). reflexivity.
  - intros k f H. apply in_app_or in H. destruct H as [H|[H|[]]]; [|discriminate H].
    exact (ascent_no_get _ _ _ _ H).
Qed.

(** *** Every write is content-addressed *)

Lemma node_writes_app evs1 evs2 :
  node_writes evs1 -> node_writes evs2 -> node_writes (evs1 ++ evs2).
Proof. unfold node_writes. intros H1 H2. apply Forall_app. split; assumption. Qed.

Lemma updateElementRecursively_writes fuel : forall T parent i v layer s r s',
  length (root T) = 32%nat ->
  updateElementRecursively fuel T parent i v layer s = Ok r s' ->
  length r = 32%nat /\
  exists evs, log s' = log s ++ evs /\ data s' = replay evs (data s) /\ node_writes evs.
Proof.
  induction fuel as [|fuel IH]; intros T parent i v layer s r s' Hroot Hrun;
    [discriminate Hrun|].
  cbn [updateElementRecursively] in Hrun.
  erewrite bind_Ok in Hrun by apply db_get_or_empty_run.
  set (rec := match data s !! parent with Some v0 => v0 | None => Buf.alloc 0 end) in Hrun.
  set (s1 := mkStore (data s) (log s ++ [Get parent (data s !! parent)])) in Hrun.
  assert (Hget : node_writes [Get parent (data s !! parent)]).
  { constructor; [exact I|constructor]. }
  destruct (bool_decide (length rec = 0%nat)).
  { injection Hrun as <- <-. split; [apply hash_length|].
    eexists. split; [reflexivity|]. split; [reflexivity|exact Hget]. }
  destruct (bool_decide (length rec = 64%nat)) eqn:H64.
  2:{ injection Hrun as <- <-. split; [exact Hroot|].
      eexists. split; [reflexivity|]. split; [reflexivity|exact Hget]. }
  apply bool_decide_eq_true_1 in H64.
  destruct (slice_length_64 rec H64) as (Hl & Hr & _).
  destruct (isLeftNode i layer).
  - unfold bind at 1 in Hrun.
    destruct (updateElementRecursively fuel T (Buf.slice 0 32 rec) i v (layer - 1) s1)
      as [r1 s1'| |] eqn:Hrec; try discriminate Hrun.
    apply IH in Hrec; [|exact Hroot].
    destruct Hrec as (Hr1 & evs & Hlog & Hdata & Hevs).
    unfold bind, db_put, ret in Hrun. injection Hrun as <- <-.
    split; [apply compress_length|].
    exists ([Get parent (data s !! parent)] ++ evs ++
            [Put (compress r1 (Buf.slice 32 64 rec)) (r1 ++ Buf.slice 32 64 rec)]).
    cbn [data log]. rewrite Hlog, Hdata. cbn [s1 data log].
    split; [rewrite <- !app_assoc; reflexivity|].
    split; [rewrite !replay_app; reflexivity|].
    apply node_writes_app; [exact Hget|]. apply node_writes_app; [exact Hevs|].
    constructor; [|constructor]. exists r1, (Buf.slice 32 64 rec). auto.
  - unfold bind at 1 in Hrun.
    destruct (updateElementRecursively fuel T (Buf.slice 32 64 rec) i v (layer - 1) s1)
      as [r1 s1'| |] eqn:Hrec; try discriminate Hrun.
    apply IH in Hrec; [|exact Hroot].
    destruct Hrec as (Hr1 & evs & Hlog & Hdata & Hevs).
    unfold bind, db_put, ret in Hrun. injection Hrun as <- <-.
    split; [apply compress_length|].
    exists ([Get parent (data s !! parent)] ++ evs ++
            [Put (compress (Buf.slice 0 32 rec) r1) (Buf.slice 0 32 rec ++ r1)]).
    cbn [data log]. rewrite Hlog, Hdata. cbn [s1 data log].
    split; [rewrite <- !app_assoc; reflexivity|].
    split; [rewrite !replay_app; reflexivity|].
    apply node_writes_app; [exact Hget|]. apply node_writes_app; [exact Hevs|].
    constructor; [|constructor]. exists (Buf.slice 0 32 rec), r1. auto.
Qed.

Lemma content_addressed_replay nm db evs tail :
  content_addressed nm db -> node_writes evs ->
  (tail = [] \/ exists meta, tail = [Put nm meta]) ->
  content_addressed nm (replay (evs ++ tail) db).
Proof.
  intros Hdb Hevs Htail k c H. apply replay_lookup_inv in H.
  destruct H as [H|H]; [apply Hdb in H; exact H|].
  apply in_app_or in H. destruct H as [H|H].
  - right. unfold node_writes in Hevs. rewrite List.Forall_forall in Hevs.
    exact (Hevs _ H).
  - destruct Htail as [->|[meta ->]]; [destruct H|].
    destruct H as [H|[]]. injection H as <- _. left. reflexivity.
Qed.

Lemma default_writes_node_writes j n : node_writes (default_writes j n).
Proof.
  unfold node_writes, default_writes. apply List.Forall_forall. intros ev H.
  apply in_map_iff in H. destruct H as (k & <- & _).
  exists (default_node k), (default_node k).
  repeat split; apply default_node_length.
Qed.

Lemma readUInt32LE_length off buf z :
  Buf.readUInt32LE off buf = Some z -> (off + 4 <= length buf)%nat.
Proof.
  unfold Buf.readUInt32LE. intros H.
  destruct (drop off buf) as [|b0 [|b1 [|b2 [|b3 rest]]]] eqn:E; try discriminate H.
  assert (Hlen : length (drop off buf) = S (S (S (S (length rest))))) by (rewrite E; reflexivity).
  rewrite length_drop in Hlen. lia.
Qed.

(** C9. Whatever the store holds and whatever index and value are passed,
    every record that empty-tree initialisation and [updateElement] write,
    the final metadata record apart, is written under the key
    [compress(left, right)] with the value [left || right], both halves 32
    bytes long. Hence a store whose records, the one under the name apart,
    are all of this form stays so under [new] and under [updateElement]. *)
Theorem content_addressing :
  (forall nm d s T' s',
     content_addressed nm (data s) ->
     new nm d s = Ok T' s' ->
     (exists evs tail,
        log s' = log s ++ evs ++ tail /\ data s' = replay (evs ++ tail) (data s) /\
        node_writes evs /\ (tail = [] \/ exists meta, tail = [Put nm meta])) /\
     content_addressed nm (data s') /\
     name T' = nm /\ length (root T') = 32%nat) /\
  (forall fuel T i v s T' s',
     length (root T) = 32%nat ->
     content_addressed (name T) (data s) ->
     updateElement fuel T i v s = Ok T' s' ->
     (exists evs meta,
        log s' = log s ++ evs ++ [Put (name T) meta] /\
        data s' = replay (evs ++ [Put (name T) meta]) (data s) /\
        node_writes evs) /\
     content_addressed (name T') (data s') /\
     name T' = name T /\ length (root T') = 32%nat).
Proof.
  split.
  - intros nm d s T' s' Hdb Hrun.
    assert (Hmain : (exists evs tail,
              log s' = log s ++ evs ++ tail /\ data s' = replay (evs ++ tail) (data s) /\
              node_writes evs /\ (tail = [] \/ exists meta, tail = [Put nm meta])) /\
              name T' = nm /\ length (root T') = 32%nat).
    { destruct (data s !! nm) as [meta|] eqn:Hnm.
      - unfold new, db_get in Hrun. unfold bind at 1 in Hrun. rewrite Hnm in Hrun.
        destruct (Buf.readUInt32LE 32 meta) as [d'|] eqn:Hread; [|discriminate Hrun].
        apply readUInt32LE_length in Hread.
        unfold construct in Hrun.
        destruct (negb ((1 <=? d') && (d' <=? MAX_DEPTH))); [discriminate Hrun|].
        injection Hrun as <- <-. cbn [name root data log].
        split; [|split; [reflexivity|]].
        + exists [Get nm (Some meta)], []. rewrite app_nil_r.
          split; [reflexivity|]. split; [reflexivity|].
          split; [constructor; [exact I|constructor]|left; reflexivity].
        + unfold Buf.slice. rewrite drop_0, length_take. lia.
      - destruct (decide (1 <= d <= 32)) as [Hd|Hd].
        + rewrite (new_fresh nm d s Hd Hnm) in Hrun. injection Hrun as <- <-.
          cbn [name root data log].
          split; [|split; [reflexivity|apply default_node_length]].
          exists (Get nm None :: default_writes 0 (Z.to_nat d)),
                 [Put nm (metadata (default_node (Z.to_nat d)) d)].
          split; [reflexivity|]. split; [reflexivity|].
          split; [|right; eexists; reflexivity].
          constructor; [exact I|apply default_writes_node_writes].
        + exfalso. unfold new, db_get in Hrun. unfold bind at 1 in Hrun.
          rewrite Hnm in Hrun. unfold construct, MAX_DEPTH in Hrun.
          replace ((1 <=? d) && (d <=? 32)) with false in Hrun.
          * discriminate Hrun.
          * symmetry. apply Bool.andb_false_iff.
            destruct (Z_le_gt_dec 1 d); [right; apply Z.leb_gt; lia|left; apply Z.leb_gt; lia]. }
    destruct Hmain as (Hev & Hname & Hlen).
    split; [exact Hev|]. split; [|split; assumption].
    destruct Hev as (evs & tail & _ & -> & Hevs & Htail).
    apply content_addressed_replay; assumption.
  - intros fuel T i v s T' s' Hroot Hdb Hrun.
    unfold updateElement in Hrun. unfold bind at 1 in Hrun.
    destruct (updateElementRecursively fuel T (root T) i v (depth T) s)
      as [r s1| |] eqn:Hrec; try discriminate Hrun.
    apply updateElementRecursively_writes in Hrec; [|exact Hroot].
    destruct Hrec as (Hr & evs & Hlog & Hdata & Hevs).
    unfold bind at 1 in Hrun. unfold writeMetaData in Hrun. cbn [name depth root] in Hrun.
    destruct (Buf.writeUInt32LE (depth T) 32 (Buf.copy r (Buf.alloc 40)))
      as [meta|]; [|discriminate Hrun].
    unfold db_put, ret in Hrun. injection Hrun as <- <-.
    cbn [name root data log]. rewrite Hlog, Hdata.
    split; [|split; [|split; [reflexivity|exact Hr]]].
    + exists evs, meta. split; [rewrite <- app_assoc; reflexivity|].
      split; [rewrite replay_app; reflexivity|exact Hevs].
    + change (<[name T := meta]> (replay evs (data s)))
        with (replay [Put (name T) meta] (replay evs (data s))).
      rewrite <- replay_app. apply content_addressed_replay; [assumption..|].
      right. eexists. reflexivity.
Qed.

(** *** Indices out of range *)






(** C3. A store that holds the metadata of a tree of depth 1 and, under the
    root, a record of three bytes. [new] restores the tree. [updateElement]
    then returns without an error, and the root it returns and keeps is
    the old root: the descent falls through to [return this.root], and no
    node is written. On the same arguments the revised copy of
    [updateElementRecursively] throws. *)
Theorem stale_root_on_corrupt_record (fuel : nat) (index : Z) (value : Buffer) :
  let nm := [x74] in
  let r := repeat x00 32 in
  let corrupt := [x01; x02; x03] in
  let s0 := mkStore (<[r := corrupt]> {[nm := r ++ Buf.le32 1 ++ repeat x00 4]}) [] in
  exists T s1 s2,
    new nm 32 s0 = Ok T s1 /\
    depth T = 1 /\ getRoot T = r /\
    data s1 !! getRoot T = Some corrupt /\
    updateElement (S fuel) T index value s1 = Ok T s2 /\
    log s2 = log s1 ++ [Get r (Some corrupt); Put nm (r ++ Buf.le32 1 ++ repeat x00 4)] /\
    data s2 = data s1 /\
    Revised.updateElementRecursively hash compress (S fuel) (root T) index value (depth T) s1
      = Throw DataFormat (mkStore (data s1) (log s1 ++ [Get r (Some corrupt)])).
Proof.
  intros nm r corrupt s0.
  exists (mkTree nm 1 r), (mkStore (data s0) [Get nm (Some (r ++ Buf.le32 1 ++ repeat x00 4))]).
  eexists. split; [reflexivity|]. split; [reflexivity|]. split; [reflexivity|].
  split; [reflexivity|].
  split; [|split; [|split]].
  - unfold updateElement.
    erewrite bind_Ok; [|cbn [updateElementRecursively];
      erewrite bind_Ok by apply db_get_or_empty_run; reflexivity].
    cbn [root name depth]. erewrite bind_Ok by (apply writeMetaData_ok; [reflexivity|cbn; lia]).
    reflexivity.
  - cbn [log]. rewrite <- app_assoc. reflexivity.
  - cbn [data name root depth]. apply insert_id.
    unfold s0. cbn [data]. rewrite lookup_insert_ne by discriminate.
    apply lookup_singleton_eq.
  - cbn [Revised.updateElementRecursively].
    erewrite bind_Ok by apply db_get_or_empty_run. reflexivity.
Qed.

(** * Further properties of the code *)

(** *** The index as a path *)

(** Following [isLeftNode] from layer [n] down to layer 1 leads to leaf
    number [index mod 2^n]: to leaf [index] itself when it is in range, and
    to the leaf with the same low bits otherwise, negative indices
    included. *)
Theorem isLeftNode_reaches_index (n : nat) (index : Z) :
  leafNumber n index = index mod 2 ^ Z.of_nat n /\
  (0 <= index < 2 ^ Z.of_nat n -> leafNumber n index = index).
Proof.
  assert (H : leafNumber n index = index mod 2 ^ Z.of_nat n).
  { induction n as [|n IH]; [simpl; rewrite Z.mod_1_r; reflexivity|].
    cbn [leafNumber]. rewrite IH.
    rewrite Nat2Z.inj_succ, <- Z.add_1_r.
    rewrite isLeftNode_testbit by lia.
    rewrite mod_pow2_succ by lia.
    destruct (Z.testbit index (Z.of_nat n)); cbn [negb Z.b2z]; lia. }
  split; [exact H|]. intros Hr. rewrite H. apply Z.mod_small. exact Hr.
Qed.

(** *** Proofs for every leaf *)

Lemma node_at_0_upd_other i j x t : forall n,
  perfect n t -> i mod 2 ^ Z.of_nat n <> j mod 2 ^ Z.of_nat n ->
  node_at 0 j (upd i x t) = node_at 0 j t.
Proof.
  induction t as [h|l IHl r IHr]; intros [|n] Hp Hne; simpl in Hp; try contradiction.
  - exfalso. apply Hne. simpl. rewrite !Z.mod_1_r. reflexivity.
  - destruct Hp as [Hpl Hpr].
    pose proof (perfect_height l n Hpl) as Hhl.
    rewrite Nat2Z.inj_succ, <- Z.add_1_r in Hne.
    rewrite !mod_pow2_succ in Hne by lia.
    cbn [upd]. rewrite Hhl.
    destruct (Z.testbit i (Z.of_nat n)) eqn:Hbi;
      cbn [node_at height Nat.leb]; rewrite ?height_upd, Hhl;
      destruct (Z.testbit j (Z.of_nat n)) eqn:Hbj; try reflexivity.
    + apply (IHr n Hpr). intros E. apply Hne. rewrite E. reflexivity.
    + apply (IHl n Hpl). intros E. apply Hne. rewrite E. reflexivity.
Qed.

Lemma node_at_0_default j n :
  node_at 0 j (default_tree n) = Leaf (hash (Buf.alloc LEAF_BYTES)).
Proof.
  induction n as [|n IH]; [reflexivity|].
  cbn [default_tree node_at height Nat.leb].
  destruct (Z.testbit j (Z.of_nat (height (default_tree n)))); exact IH.
Qed.

Lemma leaf_after_updates n j ops : forall t,
  perfect n t -> Forall (in_range (Z.of_nat n)) ops -> 0 <= j < 2 ^ Z.of_nat n ->
  thash (node_at 0 j (tree_after t ops)) =
  fold_left (fun h op => if fst op =? j then hash (snd op) else h) ops
            (thash (node_at 0 j t)).
Proof.
  induction ops as [|[i v] ops IH]; intros t Hp Hops Hj; [reflexivity|].
  inversion Hops as [|op ops' Hi Hops']; subst.
  unfold in_range in Hi. cbn [fst] in Hi.
  rewrite tree_after_cons. cbn [fold_left fst snd].
  rewrite IH; [|apply perfect_upd; [apply hash_length|exact Hp]|exact Hops'|exact Hj].
  f_equal. destruct (Z.eqb_spec i j) as [->|Hne].
  - rewrite (node_at_0_upd j (hash v) t n Hp). reflexivity.
  - rewrite (node_at_0_upd_other i j (hash v) t n Hp); [reflexivity|].
    rewrite !Z.mod_small by lia. exact Hne.
Qed.

(** On a tree opened on an empty store and updated at indices in range,
    [getHashPath(j)] proves, for every index [j] in range, the value last
    written at [j], or the block of 64 zero bytes when [j] was never
    written: the verifier started from the hash of that value recomputes
    [getRoot()]. The proviso: the leaves and nodes of the trees gone
    through all have different hashes, none of them the name of the tree;
    in particular no leaf hash is the key of a node ([leaf_not_node]). *)
Theorem every_leaf_provable (fuel : nat) (nm : Buffer) (d : Z)
    (ops : list (Z * Buffer)) (j : Z) :
  1 <= d <= 32 -> (Z.to_nat d < fuel)%nat ->
  Forall (in_range d) ops -> 0 <= j < 2 ^ d ->
  collision_free (trees_of (default_tree (Z.to_nat d)) ops) nm ->
  exists T s path s',
    session fuel nm d ops empty_store = Ok T s /\
    getHashPath T j s = Ok path s' /\
    recompute 0 j (leaf_hash_after ops j) path = getRoot T.
Proof.
  intros Hd Hfuel Hops Hj Hcf.
  destruct (session_Inv _ nm d fuel ops Hd Hfuel Hcf)
    as (T & s & Hrun & HI & Hname); [auto|].
  exists T, s. eexists _, _. split; [exact Hrun|].
  split; [eapply getHashPath_ok; exact HI|].
  unfold getRoot. rewrite (Inv_root _ _ _ _ _ HI).
  pose proof (Inv_perfect _ _ _ _ _ HI) as Hp.
  rewrite <- (recompute_path j _ _ Hp). f_equal.
  rewrite (leaf_after_updates (Z.to_nat d) j ops);
    [|apply perfect_default|rewrite Z2Nat.id by lia; exact Hops|rewrite Z2Nat.id by lia; exact Hj].
  rewrite node_at_0_default. reflexivity.
Qed.

(** *** Writing the same leaf again *)

Lemma upd_upd i x1 x2 t : upd i x2 (upd i x1 t) = upd i x2 t.
Proof.
  induction t as [h|l IHl r IHr]; [reflexivity|]. cbn [upd].
  destruct (Z.testbit i (Z.of_nat (height l))) eqn:Hb; cbn [upd];
    rewrite ?height_upd, Hb; congruence.
Qed.

(** The last write wins: after [updateElement(i, v1)] and then
    [updateElement(i, v2)] the root is the root that [updateElement(i, v2)]
    alone gives; with [v1 = v2], writing a value twice gives the same root
    as writing it once. The proviso, for both runs: the leaves and nodes of
    the trees gone through all have different hashes, none of them the
    name of the tree; in particular no leaf hash is the key of a node
    ([leaf_not_node]), or the second write would find a record under the
    hash that the first write left at the leaf. *)
Theorem last_write_wins (fuel : nat) (nm : Buffer) (d : Z)
    (ops : list (Z * Buffer)) (i : Z) (v1 v2 : Buffer) :
  1 <= d <= 32 -> (Z.to_nat d < fuel)%nat ->
  collision_free (trees_of (default_tree (Z.to_nat d)) (ops ++ [(i, v1); (i, v2)])) nm ->
  collision_free (trees_of (default_tree (Z.to_nat d)) (ops ++ [(i, v2)])) nm ->
  exists T12 s12 T2 s2,
    session fuel nm d (ops ++ [(i, v1); (i, v2)]) empty_store = Ok T12 s12 /\
    session fuel nm d (ops ++ [(i, v2)]) empty_store = Ok T2 s2 /\
    getRoot T12 = getRoot T2.
Proof.
  intros Hd Hfuel Hcf12 Hcf2.
  destruct (session_Inv _ nm d fuel (ops ++ [(i, v1); (i, v2)]) Hd Hfuel Hcf12)
    as (T12 & s12 & Hrun12 & HI12 & _); [auto|].
  destruct (session_Inv _ nm d fuel (ops ++ [(i, v2)]) Hd Hfuel Hcf2)
    as (T2 & s2 & Hrun2 & HI2 & _); [auto|].
  exists T12, s12, T2, s2. split; [exact Hrun12|]. split; [exact Hrun2|].
  unfold getRoot.
  rewrite (Inv_root _ _ _ _ _ HI12), (Inv_root _ _ _ _ _ HI2).
  rewrite !tree_after_app.
  set (t := tree_after (default_tree (Z.to_nat d)) ops).
  change (tree_after t [(i, v1); (i, v2)]) with (upd i (hash v2) (upd i (hash v1) t)).
  change (tree_after t [(i, v2)]) with (upd i (hash v2) t).
  rewrite upd_upd. reflexivity.
Qed.

(** *** The hash path of an empty tree *)

Lemma pairs_down_default i n :
  pairs_down i (default_tree n) =
  rev (map (fun k => (default_node k, default_node k)) (seq 0 n)).
Proof.
  induction n as [|n IH]; [reflexivity|].
  rewrite seq_S, map_app, rev_app_distr. cbn [pairs_down default_tree map rev app Nat.add].
  rewrite thash_default. f_equal.
  destruct (Z.testbit i (Z.of_nat (height (default_tree n)))); exact IH.
Qed.

(** On a freshly created tree, [getHashPath] returns for every index the
    same [depth] pairs: entry [k] is the default node of level [k], twice.
    The default nodes must differ from each other and from the name. *)
Theorem empty_tree_hash_path (nm : Buffer) (d : Z) (index : Z) :
  1 <= d <= 32 ->
  collision_free [default_tree (Z.to_nat d)] nm ->
  exists T s path s',
    new nm d empty_store = Ok T s /\
    getHashPath T index s = Ok path s' /\
    path = map (fun k => (default_node k, default_node k)) (seq 0 (Z.to_nat d)) /\
    Forall (fun p => fst p = snd p) path /\
    length path = Z.to_nat d.
Proof.
  intros Hd Hcf.
  destruct (new_Inv [default_tree (Z.to_nat d)] nm (Z.to_nat d))
    as (T & s & Hnew & HI & _); [lia|exact Hcf|left; reflexivity|].
  rewrite Z2Nat.id in Hnew by lia.
  exists T, s. eexists _, _. split; [exact Hnew|].
  split; [eapply getHashPath_ok; exact HI|].
  rewrite pairs_down_default, rev_involutive.
  split; [reflexivity|]. split.
  - apply List.Forall_forall. intros p Hp. apply in_map_iff in Hp.
    destruct Hp as (k & <- & _). reflexivity.
  - rewrite length_map, length_seq. reflexivity.
Qed.

(** *** Reopening a tree *)

Lemma new_restore nm d0 s r d :
  data s !! nm = Some (metadata r d) -> length r = 32%nat -> 1 <= d <= 32 ->
  new nm d0 s =
  Ok (mkTree nm d r) (mkStore (data s) (log s ++ [Get nm (data s !! nm)])).
Proof.
  intros Hnm Hr Hd. unfold new, db_get. unfold bind at 1. rewrite Hnm.
  rewrite metadata_depth by (try exact Hr; lia).
  rewrite metadata_root by exact Hr.
  unfold construct, MAX_DEPTH.
  replace (1 <=? d) with true by (symmetry; apply Z.leb_le; lia).
  replace (d <=? 32) with true by (symmetry; apply Z.leb_le; lia).
  reflexivity.
Qed.

Lemma new_reopens nm d s T s' : new nm d s = Ok T s' -> name T = nm /\ reopens T s'.
Proof.
  intros Hrun. destruct (data s !! nm) as [meta|] eqn:Hnm.
  - unfold new, db_get in Hrun. unfold bind at 1 in Hrun. rewrite Hnm in Hrun.
    destruct (Buf.readUInt32LE 32 meta) as [d'|] eqn:Hread; [|discriminate Hrun].
    unfold construct in Hrun.
    destruct (negb ((1 <=? d') && (d' <=? MAX_DEPTH))) eqn:Hchk; [discriminate Hrun|].
    injection Hrun as <- <-. split; [reflexivity|].
    apply Bool.negb_false_iff, andb_prop in Hchk. destruct Hchk as [H1 H2].
    apply Z.leb_le in H1. apply Z.leb_le in H2. unfold MAX_DEPTH in H2.
    pose proof (readUInt32LE_length _ _ _ Hread) as Hlen.
    unfold reopens. cbn [name depth root data log].
    split; [unfold Buf.slice; rewrite drop_0, length_take; lia|].
    split; [lia|]. intros d0.
    unfold new, db_get. unfold bind at 1. cbn [data log]. rewrite Hnm, Hread.
    unfold construct, MAX_DEPTH.
    replace (1 <=? d') with true by (symmetry; apply Z.leb_le; lia).
    replace (d' <=? 32) with true by (symmetry; apply Z.leb_le; lia).
    reflexivity.
  - destruct (decide (1 <= d <= 32)) as [Hd|Hd].
    + rewrite (new_fresh nm d s Hd Hnm) in Hrun. injection Hrun as <- <-.
      split; [reflexivity|]. unfold reopens. cbn [name depth root data log].
      split; [apply default_node_length|]. split; [exact Hd|]. intros d0.
      rewrite replay_app. cbn [replay fold_left].
      apply new_restore; [apply lookup_insert_eq|apply default_node_length|exact Hd].
    + exfalso. unfold new, db_get in Hrun. unfold bind at 1 in Hrun.
      rewrite Hnm in Hrun. unfold construct, MAX_DEPTH in Hrun.
      replace ((1 <=? d) && (d <=? 32)) with false in Hrun; [discriminate Hrun|].
      symmetry. apply Bool.andb_false_iff.
      destruct (Z_le_gt_dec 1 d); [right; apply Z.leb_gt; lia|left; apply Z.leb_gt; lia].
Qed.

Lemma updateElement_reopens fuel T i v s T' s' :
  reopens T s -> updateElement fuel T i v s = Ok T' s' ->
  name T' = name T /\ reopens T' s'.
Proof.
  intros (Hroot & Hd & _) Hrun.
  unfold updateElement in Hrun. unfold bind at 1 in Hrun.
  destruct (updateElementRecursively fuel T (root T) i v (depth T) s)
    as [r s1| |] eqn:Hrec; try discriminate Hrun.
  apply updateElementRecursively_writes in Hrec; [|exact Hroot].
  destruct Hrec as (Hr & _).
  erewrite bind_Ok in Hrun; cycle 1.
  { apply writeMetaData_ok; cbn [root depth]; [exact Hr|lia]. }
  unfold ret in Hrun. injection Hrun as <- <-.
  split; [reflexivity|]. unfold reopens. cbn [name depth root data log].
  split; [exact Hr|]. split; [exact Hd|]. intros d0.
  apply new_restore; [apply lookup_insert_eq|exact Hr|exact Hd].
Qed.

Lemma updateElements_reopens fuel ops : forall T s T' s',
  reopens T s -> updateElements fuel T ops s = Ok T' s' ->
  name T' = name T /\ reopens T' s'.
Proof.
  induction ops as [|[i v] ops IH]; intros T s T' s' Hre Hrun.
  - injection Hrun as <- <-. split; [reflexivity|exact Hre].
  - cbn [updateElements] in Hrun. unfold bind at 1 in Hrun.
    destruct (updateElement fuel T i v s) as [T1 s1| |] eqn:Hupd; try discriminate Hrun.
    destruct (updateElement_reopens _ _ _ _ _ _ _ Hre Hupd) as [Hn1 Hre1].
    destruct (IH _ _ _ _ Hre1 Hrun) as [Hn' Hre']. split; [congruence|exact Hre'].
Qed.

(** The state survives a restart. Whatever the store held at the start,
    whatever the indices and values: when a tree was opened and a list of
    updates went through, opening the same name again, with any depth
    argument, returns an object with the same name, depth and root, from a
    single read of the store. *)
Theorem reopen_after_session (fuel : nat) (nm : Buffer) (d : Z)
    (ops : list (Z * Buffer)) (s0 : Store) (T : MerkleTree) (s : Store) (d0 : Z) :
  session fuel nm d ops s0 = Ok T s ->
  new nm d0 s = Ok T (mkStore (data s) (log s ++ [Get nm (data s !! nm)])) /\
  name T = nm /\ 1 <= depth T <= 32 /\ length (getRoot T) = 32%nat.
Proof.
  intros Hrun. unfold session in Hrun. unfold bind at 1 in Hrun.
  destruct (new nm d s0) as [T0 s1| |] eqn:Hnew; try discriminate Hrun.
  destruct (new_reopens _ _ _ _ _ Hnew) as [Hn0 Hre0].
  destruct (updateElements_reopens _ _ _ _ _ _ Hre0 Hrun) as [Hn (Hroot & Hd & Hre)].
  rewrite Hn0 in Hn. specialize (Hre d0). rewrite Hn in Hre.
  split; [exact Hre|]. split; [exact Hn|]. split; [exact Hd|exact Hroot].
Qed.

(** *** Opening that fails *)

(** [new] never writes before it throws: the only errors are a bad depth
    and a metadata record too short to hold the depth, and after either
    the store holds what it held, with the one read logged. Without
    metadata, [new] throws exactly when the depth argument is outside
    [1, 32]; with metadata the depth argument plays no part. *)
Theorem new_failure_writes_nothing (nm : Buffer) (d : Z) (s : Store) :
  (forall e s', new nm d s = Throw e s' ->
     (e = BadDepth \/ e = RangeError) /\
     data s' = data s /\ log s' = log s ++ [Get nm (data s !! nm)]) /\
  new nm d s <> OutOfFuel /\
  (data s !! nm = None ->
     ((exists s', new nm d s = Throw BadDepth s') <-> ~ 1 <= d <= 32)) /\
  (forall meta, data s !! nm = Some meta ->
     ((exists s', new nm d s = Throw RangeError s') <-> (length meta < 36)%nat) /\
     forall d', new nm d' s = new nm d s).
Proof.
  destruct (data s !! nm) as [meta|] eqn:Hnm.
  - assert (Hshape : new nm d s =
      match Buf.readUInt32LE 32 meta with
      | Some d' => construct nm d' (Some (Buf.slice 0 32 meta))
                     (mkStore (data s) (log s ++ [Get nm (Some meta)]))
      | None => Throw RangeError (mkStore (data s) (log s ++ [Get nm (Some meta)]))
      end).
    { unfold new, db_get. unfold bind at 1. rewrite Hnm.
      destruct (Buf.readUInt32LE 32 meta); reflexivity. }
    split; [|split; [|split]].
    + intros e s' H. rewrite Hshape in H.
      destruct (Buf.readUInt32LE 32 meta) as [d'|].
      * unfold construct in H. destruct (negb _); [|discriminate H].
        injection H as <- <-. auto.
      * injection H as <- <-. auto.
    + rewrite Hshape. destruct (Buf.readUInt32LE 32 meta) as [d'|]; [|discriminate].
      unfold construct. destruct (negb _); discriminate.
    + discriminate.
    + intros meta0 H. injection H as <-. split; [split|].
      * intros [s' Hthrow]. rewrite Hshape in Hthrow.
        destruct (Buf.readUInt32LE 32 meta) as [d'|] eqn:Hread.
        -- unfold construct in Hthrow. destruct (negb _); discriminate Hthrow.
        -- unfold Buf.readUInt32LE in Hread.
           destruct (drop 32 meta) as [|b0 [|b1 [|b2 [|b3 rest]]]] eqn:E;
             try discriminate Hread;
             apply (f_equal (@length byte)) in E; rewrite length_drop in E;
             simpl in E; lia.
      * intros Hlen. rewrite Hshape.
        destruct (Buf.readUInt32LE 32 meta) as [d'|] eqn:Hread; [|eexists; reflexivity].
        apply readUInt32LE_length in Hread. lia.
      * intros d'. unfold new, db_get. unfold bind. rewrite Hnm. reflexivity.
  - destruct (decide (1 <= d <= 32)) as [Hd|Hd].
    + pose proof (new_fresh nm d s Hd Hnm) as Hnew. cbn zeta in Hnew.
      split; [|split; [|split]].
      * intros e s' H. rewrite Hnew in H. discriminate H.
      * rewrite Hnew. discriminate.
      * intros _. split; [|intros H; contradiction].
        intros [s' H]. rewrite Hnew in H. discriminate H.
      * intros meta H. discriminate H.
    + assert (Hthrow : new nm d s = Throw BadDepth (mkStore (data s) (log s ++ [Get nm None]))).
      { unfold new, db_get. unfold bind at 1. rewrite Hnm. unfold construct, MAX_DEPTH.
        replace ((1 <=? d) && (d <=? 32)) with false; [reflexivity|].
        symmetry. apply Bool.andb_false_iff.
        destruct (Z_le_gt_dec 1 d); [right; apply Z.leb_gt; lia|left; apply Z.leb_gt; lia]. }
      split; [|split; [|split]].
      * intros e s' H. rewrite Hthrow in H. injection H as <- <-. auto.
      * rewrite Hthrow. discriminate.
      * intros _. split; [intros _; exact Hd|]. intros _. eexists. exact Hthrow.
      * intros meta H. discriminate H.
Qed.

(** *** Reading from any store *)

Lemma getHashPath_loop_any n : forall i acc cur layer s,
  exists more s' gets,
    getHashPath_loop n i acc cur layer s = Ok (acc ++ more) s' /\
    data s' = data s /\
    log s' = log s ++ gets /\ length gets = n /\ Forall is_get gets /\
    (length more <= n)%nat /\
    Forall (fun p => length (fst p) = 32%nat /\ length (snd p) = 32%nat /\
                     exists k, data s !! k = Some (fst p ++ snd p)) more /\
    (forall p, head more = Some p -> data s !! cur = Some (fst p ++ snd p)).
Proof.
  induction n as [|n IH]; intros i acc cur layer s.
  - exists [], s, []. rewrite !app_nil_r. repeat split; try constructor.
    intros p H. discriminate H.
  - cbn [getHashPath_loop].
    erewrite bind_Ok by apply db_get_or_empty_run.
    set (rec := match data s !! cur with Some v => v | None => Buf.alloc 0 end).
    set (s1 := mkStore (data s) (log s ++ [Get cur (data s !! cur)])).
    assert (Hg : is_get (Get cur (data s !! cur))) by (eexists _, _; reflexivity).
    destruct (bool_decide (length rec = 64%nat)) eqn:H64.
    + apply bool_decide_eq_true_1 in H64.
      destruct (slice_length_64 rec H64) as (Hl & Hr & Hrec).
      assert (Hcur : data s !! cur = Some rec).
      { unfold rec in *. destruct (data s !! cur); [reflexivity|discriminate H64]. }
      destruct (IH i (acc ++ [(Buf.slice 0 32 rec, Buf.slice 32 64 rec)])
                  (if isLeftNode i layer then Buf.slice 0 32 rec else Buf.slice 32 64 rec)
                  (layer - 1) s1)
        as (more & s' & gets & Hrun & Hdata & Hlog & Hlen & Hgets & Hmore & Hall & _).
      exists ((Buf.slice 0 32 rec, Buf.slice 32 64 rec) :: more), s',
             (Get cur (data s !! cur) :: gets).
      rewrite Hrun, <- app_assoc. split; [reflexivity|].
      split; [exact Hdata|]. split; [rewrite Hlog; cbn [s1 log]; rewrite <- app_assoc; reflexivity|].
      split; [simpl; lia|]. split; [constructor; assumption|].
      split; [simpl; lia|]. split.
      * constructor; [|exact Hall]. cbn [fst snd].
        split; [exact Hl|]. split; [exact Hr|]. exists cur. rewrite <- Hrec. exact Hcur.
      * intros p Hp. injection Hp as <-. cbn [fst snd]. rewrite <- Hrec. exact Hcur.
    + destruct (IH i acc cur (layer - 1) s1)
        as (more & s' & gets & Hrun & Hdata & Hlog & Hlen & Hgets & Hmore & Hall & Hhead).
      exists more, s', (Get cur (data s !! cur) :: gets).
      rewrite Hrun. split; [reflexivity|].
      split; [exact Hdata|]. split; [rewrite Hlog; cbn [s1 log]; rewrite <- app_assoc; reflexivity|].
      split; [simpl; lia|]. split; [constructor; assumption|].
      split; [lia|]. split; [exact Hall|exact Hhead].
Qed.

(** On every store and for every index, [getHashPath] returns: it makes
    exactly [depth] reads and no write, and gives at most [depth] pairs.
    Each pair is the two 32-byte halves of a 64-byte record of the store,
    and the last pair, when there is one, is the record under the root. *)
Theorem getHashPath_reads_only (T : MerkleTree) (index : Z) (s : Store) :
  exists path s' gets,
    getHashPath T index s = Ok path s' /\
    data s' = data s /\
    log s' = log s ++ gets /\ length gets = Z.to_nat (depth T) /\ Forall is_get gets /\
    (length path <= Z.to_nat (depth T))%nat /\
    Forall (fun p => length (fst p) = 32%nat /\ length (snd p) = 32%nat /\
                     exists k, data s !! k = Some (fst p ++ snd p)) path /\
    (forall p, last path = Some p -> data s !! root T = Some (fst p ++ snd p)).
Proof.
  destruct (getHashPath_loop_any (Z.to_nat (depth T)) index [] (root T) (depth T) s)
    as (more & s' & gets & Hrun & Hdata & Hlog & Hlen & Hgets & Hmore & Hall & Hhead).
  exists (rev more), s', gets. unfold getHashPath.
  erewrite bind_Ok by exact Hrun. cbn [app]. split; [reflexivity|].
  split; [exact Hdata|]. split; [exact Hlog|]. split; [exact Hlen|].
  split; [exact Hgets|]. split; [rewrite length_rev; exact Hmore|].
  split; [apply Forall_rev; exact Hall|].
  intros p Hp. apply Hhead. destruct more as [|q more]; [discriminate Hp|].
  cbn [rev] in Hp. rewrite last_snoc in Hp. exact Hp.
Qed.

(** *** The cost and the footprint of an update *)

Lemma descent_shape i t : forall n,
  perfect n t -> length (descent i t) = S n /\ Forall is_get (descent i t).
Proof.
  induction t as [h|l IHl r IHr]; intros [|n] Hp; simpl in Hp; try contradiction.
  - split; [reflexivity|]. constructor; [eexists _, _; reflexivity|constructor].
  - destruct Hp as [Hpl Hpr]. cbn [descent].
    destruct (Z.testbit i (Z.of_nat (height l)));
      [destruct (IHr n Hpr) as [Hlen Hall]|destruct (IHl n Hpl) as [Hlen Hall]];
      (split; [simpl; lia|constructor; [eexists _, _; reflexivity|exact Hall]]).
Qed.

Lemma ascent_shape i t : forall n,
  perfect n t -> length (ascent i t) = n /\ Forall is_put (ascent i t).
Proof.
  induction t as [h|l IHl r IHr]; intros [|n] Hp; simpl in Hp; try contradiction.
  - split; [reflexivity|constructor].
  - destruct Hp as [Hpl Hpr]. cbn [ascent].
    destruct (Z.testbit i (Z.of_nat (height l)));
      [destruct (IHr n Hpr) as [Hlen Hall]|destruct (IHl n Hpl) as [Hlen Hall]];
      (split; [rewrite length_app; simpl; lia|]);
      apply Forall_app; (split; [exact Hall|]);
      (constructor; [eexists _, _; reflexivity|constructor]).
Qed.

(** One store round trip per level. On a tree opened on an empty store and
    updated, one more [updateElement] first makes [depth + 1] reads and
    then [depth + 1] writes, the last of them the metadata, and nothing
    else; these writes are all that changes in the store. The proviso: the
    leaves and nodes of the trees gone through, the updated one included,
    all have different hashes, none of them the name of the tree; in
    particular no leaf hash is the key of a node ([leaf_not_node]), or the
    descent would go on below the leaf. *)
Theorem update_io_per_level (fuel : nat) (nm : Buffer) (d : Z)
    (ops : list (Z * Buffer)) (i : Z) (v : Buffer) :
  1 <= d <= 32 -> (Z.to_nat d < fuel)%nat ->
  collision_free (trees_of (default_tree (Z.to_nat d)) (ops ++ [(i, v)])) nm ->
  exists T s T' s' gets puts meta,
    session fuel nm d ops empty_store = Ok T s /\
    updateElement fuel T i v s = Ok T' s' /\
    log s' = log s ++ gets ++ puts ++ [Put nm meta] /\
    Forall is_get gets /\ Z.of_nat (length gets) = d + 1 /\
    Forall is_put puts /\ Z.of_nat (length puts) = d /\
    data s' = replay (puts ++ [Put nm meta]) (data s).
Proof.
  intros Hd Hfuel Hcf.
  set (U := trees_of (default_tree (Z.to_nat d)) (ops ++ [(i, v)])) in *.
  set (t := tree_after (default_tree (Z.to_nat d)) ops).
  destruct (session_Inv U nm d fuel ops Hd Hfuel Hcf)
    as (T & s & Hrun & HI & Hname).
  { intros u Hu. apply trees_of_app_incl. exact Hu. }
  fold t in HI. rewrite <- Hname in Hcf.
  assert (Ht' : In (upd i (hash v) t) U).
  { change (upd i (hash v) t) with (tree_after t [(i, v)]).
    unfold t. rewrite <- tree_after_app. apply trees_of_last. }
  destruct (updateElement_ok U _ t T s fuel i v Hcf HI Ht' Hfuel) as [Hupd _].
  cbn zeta in Hupd.
  pose proof (Inv_perfect _ _ _ _ _ HI) as Hp.
  assert (Hp' : perfect (Z.to_nat d) (upd i (hash v) t)).
  { apply perfect_upd; [apply hash_length|exact Hp]. }
  destruct (descent_shape i t _ Hp) as [Hdl Hdg].
  destruct (ascent_shape i (upd i (hash v) t) _ Hp') as [Hal Hap].
  exists T, s. eexists _, _, (descent i t), (ascent i (upd i (hash v) t)), _.
  split; [exact Hrun|]. split; [exact Hupd|]. cbn [data log]. rewrite Hname.
  split; [reflexivity|]. split; [exact Hdg|]. split; [lia|].
  split; [exact Hap|]. split; [lia|reflexivity].
Qed.

(** Copy on write. Under the same conditions an update changes no record
    other than the metadata: every record the store held before is still
    there with the same value, and [getHashPath] run with the old root
    returns, for every index, the path it returned before the update. *)
Theorem update_keeps_old_tree (fuel : nat) (nm : Buffer) (d : Z)
    (ops : list (Z * Buffer)) (i : Z) (v : Buffer) :
  1 <= d <= 32 -> (Z.to_nat d < fuel)%nat ->
  collision_free (trees_of (default_tree (Z.to_nat d)) (ops ++ [(i, v)])) nm ->
  exists T s T' s',
    session fuel nm d ops empty_store = Ok T s /\
    updateElement fuel T i v s = Ok T' s' /\
    (forall k c, k <> nm -> data s !! k = Some c -> data s' !! k = Some c) /\
    (forall j, exists path s1 s2,
        getHashPath T j s = Ok path s1 /\ getHashPath T j s' = Ok path s2 /\
        Z.of_nat (length path) = d).
Proof.
  intros Hd Hfuel Hcf.
  set (U := trees_of (default_tree (Z.to_nat d)) (ops ++ [(i, v)])) in *.
  set (t := tree_after (default_tree (Z.to_nat d)) ops).
  destruct (session_Inv U nm d fuel ops Hd Hfuel Hcf)
    as (T & s & Hrun & HI & Hname).
  { intros u Hu. apply trees_of_app_incl. exact Hu. }
  fold t in HI. rewrite <- Hname in Hcf.
  assert (Ht' : In (upd i (hash v) t) U).
  { change (upd i (hash v) t) with (tree_after t [(i, v)]).
    unfold t. rewrite <- tree_after_app. apply trees_of_last. }
  destruct (updateElement_ok U _ t T s fuel i v Hcf HI Ht' Hfuel) as [Hupd HI'].
  cbn zeta in Hupd, HI'.
  set (evs := ascent i (upd i (hash v) t) ++
              [Put (name T) (metadata (thash (upd i (hash v) t)) (depth T))]) in *.
  set (s' := mkStore (replay evs (data s)) (log s ++ descent i t ++ evs)) in *.
  pose proof HI as HIs.
  destruct HI as (HId & HIn & Hp & Hroot & HtU & Hpres & Honly).
  assert (Hevs : forall k c, In (Put k c) evs ->
            k = name T \/ exists l r, In (Node l r) (flat_map subtrees U) /\
              k = compress (thash l) (thash r) /\ c = thash l ++ thash r).
  { intros k c H. apply in_app_or in H. destruct H as [H|[H|[]]].
    - right. apply ascent_node in H. destruct H as (l & r & Hin & Hk & Hc).
      exists l, r. split; [|split; assumption].
      apply (in_universe U (upd i (hash v) t)); assumption.
    - injection H as <- _. left. reflexivity. }
  assert (HIold : Inv U (Z.to_nat d) t T s').
  { unfold Inv. repeat split; try assumption; try lia.
    - cbn [s' data]. eapply present_replay; [exact Hcf|exact HtU| |exact Hevs].
      intros l r Hin. left. eapply present_node; eassumption.
    - apply HI'. }
  exists T, s. eexists _, s'. split; [exact Hrun|]. split; [exact Hupd|]. split.
  - intros k c Hk Hdb. cbn [s' data]. apply replay_lookup; [|left; exact Hdb].
    intros c' Hc'. apply Hevs in Hc'. rewrite Hname in Hc'.
    destruct Hc' as [E|(l' & r' & Hin' & Hk' & ->)]; [contradiction|].
    apply Honly in Hdb. rewrite Hname in Hdb.
    destruct Hdb as [E|(l & r & Hin & Hkk & ->)]; [contradiction|].
    destruct Hcf as [Hinj _].
    assert (E : Node l r = Node l' r').
    { apply Hinj; try assumption. cbn [thash]. congruence. }
    injection E as -> ->. reflexivity.
  - intros j. eexists _, _, _.
    split; [exact (getHashPath_ok U (Z.to_nat d) t T s j HIs)|].
    split; [exact (getHashPath_ok U (Z.to_nat d) t T s' j HIold)|].
    rewrite length_rev, (pairs_down_length j t _ Hp). lia.
Qed.

(** *** A record that is its own child *)

(** The recursion is not bounded by the layer: on a store where the record
    under a 32-byte key [k] is [k || k], the descent from [k] never comes
    back, whatever the index, value and layer. In the model no amount of
    fuel is enough. *)
Theorem self_reference_never_returns (fuel : nat) (T : MerkleTree) (k : Buffer)
    (i : Z) (v : Buffer) (layer : Z) (s : Store) :
  length k = 32%nat -> data s !! k = Some (k ++ k) ->
  updateElementRecursively fuel T k i v layer s = OutOfFuel /\
  (root T = k -> updateElement fuel T i v s = OutOfFuel).
Proof.
  intros Hk Hrec.
  assert (H : forall fuel layer log0,
            updateElementRecursively fuel T k i v layer (mkStore (data s) log0) = OutOfFuel).
  { clear fuel layer. induction fuel as [|fuel IH]; intros layer log0; [reflexivity|].
    cbn [updateElementRecursively].
    erewrite bind_Ok by apply db_get_or_empty_run. cbn [data log]. rewrite Hrec.
    rewrite bool_decide_eq_false_2 by (rewrite length_app; lia).
    rewrite bool_decide_eq_true_2 by (rewrite length_app; lia).
    rewrite slice_left, slice_right by assumption.
    destruct (isLeftNode i layer); unfold bind at 1; rewrite IH; reflexivity. }
  assert (Hs : s = mkStore (data s) (log s)) by (destruct s; reflexivity).
  split.
  - rewrite Hs. apply H.
  - intros Hroot. unfold updateElement. unfold bind at 1. rewrite Hroot.
    rewrite Hs. rewrite H. reflexivity.
Qed.

(** *** The revised copy against the first *)

Lemma revised_isLeftNode_agree index layer :
  0 <= index -> Revised.isLeftNode index layer = isLeftNode index layer.
Proof.
  intros Hi. unfold Revised.isLeftNode, isLeftNode.
  destruct (1 <=? layer) eqn:Hl; [|reflexivity].
  apply Z.leb_le in Hl. f_equal.
  assert (Hk : 0 < 2 ^ (layer - 1)) by (apply Z.pow_pos_nonneg; lia).
  assert (Hq : 0 <= index / 2 ^ (layer - 1)) by (apply Z.div_pos; lia).
  rewrite (Z.rem_mod_nonneg (index / 2 ^ (layer - 1)) 2) by lia.
  rewrite Z.rem_mod_nonneg by (try apply Z.pow_pos_nonneg; lia).
  replace layer with ((layer - 1) + 1) at 1 by lia.
  rewrite Z.pow_add_r by lia. change (2 ^ 1) with 2.
  rewrite Z.rem_mul_r by lia.
  rewrite (Z.mul_comm (2 ^ (layer - 1))), Z.div_add by lia.
  rewrite Z.div_small by (apply Z.mod_pos_bound; lia). reflexivity.
Qed.

(** The revised [updateElementRecursively] throws before it writes: its
    only error is the one for a record of a size other than 0 and 64, and
    when it is thrown the store holds what it held before the call; the
    descent has only read. *)
Theorem revised_throw_writes_nothing (fuel : nat) (parent : Buffer) (index : Z)
    (value : Buffer) (layer : Z) (s : Store) (e : error) (s' : Store) :
  Revised.updateElementRecursively hash compress fuel parent index value layer s
    = Throw e s' ->
  e = DataFormat /\ data s' = data s /\
  exists gets, log s' = log s ++ gets /\ Forall is_get gets /\
    exists k c, last gets = Some (Get k (Some c)) /\
      length c <> 0%nat /\ length c <> 64%nat.
Proof.
  revert parent layer s. induction fuel as [|fuel IH]; intros parent layer s Hrun;
    [discriminate Hrun|].
  cbn [Revised.updateElementRecursively] in Hrun.
  erewrite bind_Ok in Hrun by apply db_get_or_empty_run.
  set (rec := match data s !! parent with Some v => v | None => Buf.alloc 0 end) in Hrun.
  set (s1 := mkStore (data s) (log s ++ [Get parent (data s !! parent)])) in Hrun.
  assert (Hg : is_get (Get parent (data s !! parent))) by (eexists _, _; reflexivity).
  destruct (bool_decide (length rec = 0%nat)) eqn:H0; [discriminate Hrun|].
  destruct (bool_decide (length rec = 64%nat)) eqn:H64.
  - assert (Hrec : exists rec' s1',
              (Revised.updateElementRecursively hash compress fuel rec' index value
                 (layer - 1) s1 = Throw e s1') /\ s1' = s').
    { destruct (Revised.isLeftNode index layer); unfold bind at 1 in Hrun;
        match type of Hrun with
        | context [Revised.updateElementRecursively _ _ _ ?a ?b ?c ?g ?h] =>
            destruct (Revised.updateElementRecursively hash compress fuel a b c g h)
              as [r1 s1'|e1 s1'|] eqn:E
        end; try discriminate Hrun; injection Hrun as <- <-; eauto. }
    destruct Hrec as (rec' & s1' & Hrec & <-).
    apply IH in Hrec. destruct Hrec as (He & Hdata & gets & Hlog & Hgets & Hlast).
    split; [exact He|]. split; [exact Hdata|].
    exists (Get parent (data s !! parent) :: gets).
    split; [rewrite Hlog; cbn [s1 log]; rewrite <- app_assoc; reflexivity|].
    split; [constructor; assumption|].
    destruct Hlast as (k & c & Hlast & Hc). exists k, c. split; [|exact Hc].
    destruct gets as [|g gets]; [discriminate Hlast|exact Hlast].
  - injection Hrun as <- <-. split; [reflexivity|]. split; [reflexivity|].
    exists [Get parent (data s !! parent)]. split; [reflexivity|].
    split; [constructor; [exact Hg|constructor]|].
    apply bool_decide_eq_false_1 in H0. apply bool_decide_eq_false_1 in H64.
    unfold rec in *. destruct (data s !! parent) as [c|]; [|exfalso; apply H0; reflexivity].
    exists parent, c. auto.
Qed.

(** For an index that is not negative, whenever the revised
    [updateElementRecursively] returns a hash, the first copy returns the
    same hash and leaves the same store; and when the revised copy does
    not come back, neither does the first. The two differ only where the
    revised one throws. *)
Theorem revised_update_agrees (fuel : nat) (T : MerkleTree) (parent : Buffer)
    (index : Z) (value : Buffer) (layer : Z) (s : Store) :
  0 <= index ->
  (forall r s',
     Revised.updateElementRecursively hash compress fuel parent index value layer s
       = Ok r s' ->
     updateElementRecursively fuel T parent index value layer s = Ok r s') /\
  (Revised.updateElementRecursively hash compress fuel parent index value layer s
     = OutOfFuel ->
   updateElementRecursively fuel T parent index value layer s = OutOfFuel).
Proof.
  intros Hi. revert parent layer s.
  induction fuel as [|fuel IH]; intros parent layer s; [split; [discriminate|reflexivity]|].
  cbn [Revised.updateElementRecursively updateElementRecursively].
  erewrite !bind_Ok by apply db_get_or_empty_run.
  destruct (bool_decide _); [split; [tauto|discriminate]|].
  destruct (bool_decide _); [|split; discriminate].
  rewrite revised_isLeftNode_agree by exact Hi.
  destruct (isLeftNode index layer); unfold bind at 1 3 5 7;
    match goal with
    | |- context [Revised.updateElementRecursively _ _ _ ?a ?b ?c ?g ?h] =>
        destruct (IH a g h) as [IHok IHfuel];
        destruct (Revised.updateElementRecursively hash compress fuel a b c g h)
          as [r1 s1'|e1 s1'|] eqn:E
    end;
    try (rewrite (IHok _ _ eq_refl)); try (rewrite (IHfuel eq_refl));
    split; try discriminate; tauto.
Qed.

Lemma getHashPath_loops_stuck n : forall i acc cur layer layer' s,
  length (match data s !! cur with Some v => v | None => Buf.alloc 0 end) <> 64%nat ->
  Revised.getHashPath_loop n i acc cur layer s = getHashPath_loop n i acc cur layer' s.
Proof.
  induction n as [|n IH]; intros i acc cur layer layer' s Hlen; [reflexivity|].
  cbn [Revised.getHashPath_loop getHashPath_loop].
  erewrite !bind_Ok by apply db_get_or_empty_run.
  rewrite bool_decide_eq_false_2 by exact Hlen. apply IH. exact Hlen.
Qed.

Lemma revised_getHashPath_loop_same n : forall i acc cur layer s,
  0 <= i ->
  Revised.getHashPath_loop n i acc cur layer s = getHashPath_loop n i acc cur layer s.
Proof.
  induction n as [|n IH]; intros i acc cur layer s Hi; [reflexivity|].
  cbn [Revised.getHashPath_loop getHashPath_loop].
  erewrite !bind_Ok by apply db_get_or_empty_run.
  destruct (bool_decide _) eqn:H64.
  - rewrite revised_isLeftNode_agree by exact Hi. apply IH. exact Hi.
  - apply getHashPath_loops_stuck. cbn [data].
    apply bool_decide_eq_false_1 in H64. exact H64.
Qed.

(** For an index that is not negative the two copies of [getHashPath]
    return the same path and leave the same log, on every store: moving
    the decrement of [layer] into the branch changes nothing, since after
    a lookup that finds no 64-byte record no later lookup finds one. *)
Theorem revised_getHashPath_same (T : MerkleTree) (index : Z) (s : Store) :
  0 <= index -> Revised.getHashPath T index s = getHashPath T index s.
Proof.
  intros Hi. unfold Revised.getHashPath, getHashPath. unfold bind.
  rewrite revised_getHashPath_loop_same by exact Hi. reflexivity.
Qed.

(** *** The variant with stump nodes *)

Lemma lift_get_run k s :
  Stump.lift (db_get_or_empty k) s =
  Stump.Done (match data s !! k with Some v => v | None => Buf.alloc 0 end)
             (mkStore (data s) (log s ++ [Get k (data s !! k)])).
Proof. unfold Stump.lift. rewrite db_get_or_empty_run. reflexivity. Qed.

Lemma vbind_Done {A B} (m : Stump.V A) (k : A -> Stump.V B) s a s' :
  m s = Stump.Done a s' -> Stump.vbind m k s = k a s'.
Proof. intros H. unfold Stump.vbind. rewrite H. reflexivity. Qed.

Lemma getHashPath2_loop_refines n : forall i acc cur layer s,
  match Stump.getHashPath2_loop n i acc cur layer s with
  | Stump.Done path s' => getHashPath_loop n i acc cur layer s = Ok path s'
  | Stump.Fail f s' =>
      f = Stump.NotSupported /\ data s' = data s /\
      exists gets k c, log s' = log s ++ gets /\ Forall is_get gets /\
        last gets = Some (Get k c) /\ (found_size c = 0%nat \/ found_size c = 65%nat)
  | Stump.NoFuel => False
  end.
Proof.
  induction n as [|n IH]; intros i acc cur layer s; [reflexivity|].
  cbn [Stump.getHashPath2_loop getHashPath_loop].
  erewrite vbind_Done by apply lift_get_run.
  erewrite bind_Ok by apply db_get_or_empty_run.
  set (rec := match data s !! cur with Some v => v | None => Buf.alloc 0 end).
  set (s1 := mkStore (data s) (log s ++ [Get cur (data s !! cur)])).
  assert (Hg : is_get (Get cur (data s !! cur))) by (eexists _, _; reflexivity).
  assert (Hbad : length rec = 0%nat \/ length rec = 65%nat ->
            Stump.NotSupported = Stump.NotSupported /\ data s1 = data s /\
            exists gets k c, log s1 = log s ++ gets /\ Forall is_get gets /\
              last gets = Some (Get k c) /\
              (found_size c = 0%nat \/ found_size c = 65%nat)).
  { intros Hlen. split; [reflexivity|]. split; [reflexivity|].
    exists [Get cur (data s !! cur)], cur, (data s !! cur).
    split; [reflexivity|]. split; [constructor; [exact Hg|constructor]|].
    split; [reflexivity|exact Hlen]. }
  destruct (bool_decide (length rec = 65%nat)) eqn:H65.
  { apply bool_decide_eq_true_1 in H65. unfold Stump.vfail. auto. }
  destruct (bool_decide (length rec = 0%nat)) eqn:H0.
  { apply bool_decide_eq_true_1 in H0. unfold Stump.vfail. auto. }
  match goal with
  | |- context [Stump.getHashPath2_loop n ?a ?b ?c ?g ?h] =>
      specialize (IH a b c g h);
      destruct (Stump.getHashPath2_loop n a b c g h) as [path s'|f s'|]
  end.
  - destruct (bool_decide (length rec = 64%nat)); exact IH.
  - destruct IH as (Hf & Hdata & gets & k & c & Hlog & Hgets & Hlast & Hc).
    split; [exact Hf|]. split; [exact Hdata|].
    exists (Get cur (data s !! cur) :: gets), k, c.
    split; [rewrite Hlog; cbn [s1 log]; rewrite <- app_assoc; reflexivity|].
    split; [constructor; assumption|]. split; [|exact Hc].
    destruct gets as [|g gets]; [discriminate Hlast|exact Hlast].
  - exact IH.
Qed.

(** [getHashPath2] of the variant against [getHashPath] of the first file,
    on every tree object, index and store: when [getHashPath2] returns, it
    returns the path and the store that [getHashPath] returns. Otherwise
    it throws NOT SUPPORTED, having only read, and the record it read last
    is absent, empty or 65 bytes long. *)
Theorem getHashPath2_refines (T : MerkleTree) (index : Z) (s : Store) :
  match Stump.getHashPath2 T index s with
  | Stump.Done path s' => getHashPath T index s = Ok path s'
  | Stump.Fail f s' =>
      f = Stump.NotSupported /\ data s' = data s /\
      exists gets k c, log s' = log s ++ gets /\ Forall is_get gets /\
        last gets = Some (Get k c) /\ (found_size c = 0%nat \/ found_size c = 65%nat)
  | Stump.NoFuel => False
  end.
Proof.
  unfold Stump.getHashPath2, getHashPath. unfold Stump.vbind, bind.
  pose proof (getHashPath2_loop_refines (Z.to_nat (depth T)) index [] (root T) (depth T) s) as H.
  destruct (Stump.getHashPath2_loop (Z.to_nat (depth T)) index [] (root T) (depth T) s)
    as [path s'|f s'|]; [|exact H|exact H].
  rewrite H. reflexivity.
Qed.



Lemma readUInt32BE_65 (c : Buffer) : length c = 65%nat -> Stump.readUInt32BE 64 c = None.
Proof.
  intros Hc. unfold Stump.readUInt32BE.
  assert (Hlen : length (drop 64 c) = 1%nat) by (rewrite length_drop; lia).
  destruct (drop 64 c) as [|b0 [|b1 rest]]; try discriminate Hlen. reflexivity.
Qed.

(** A stump record cannot be read back. [getHashPath] of the variant reads
    the stored index of a 65-byte record at offset 64, where only one byte
    is left: when the record under the root of a tree of depth at least 1
    is 65 bytes long, the call fails with a RangeError, for every index. *)
Theorem stump_record_not_readable (T : MerkleTree) (index : Z) (s : Store) (c : Buffer) :
  1 <= depth T -> data s !! root T = Some c -> length c = 65%nat ->
  Stump.getHashPath hash compress T index s =
  Stump.Fail (Stump.Base RangeError)
             (mkStore (data s) (log s ++ [Get (root T) (Some c)])).
Proof.
  intros Hd Hrec Hc. unfold Stump.getHashPath.
  destruct (Z.to_nat (depth T)) as [|n] eqn:En; [lia|].
  cbn [Stump.getHashPath_loop].
  erewrite vbind_Done by apply lift_get_run. rewrite Hrec.
  rewrite bool_decide_eq_false_2 by lia.
  rewrite bool_decide_eq_true_2 by exact Hc.
  rewrite readUInt32BE_65 by exact Hc. reflexivity.
Qed.

Lemma stump_getHashPath_loop_ok index t : forall n acc s,
  perfect n t -> present (data s) t ->
  Stump.getHashPath_loop hash compress n (Z.of_nat n - 1) index acc (thash t) s =
  Stump.Done (acc ++ map (fun p => [fst p; snd p]) (pairs_down (2 * index) t))
             (mkStore (data s) (log s ++ walk (2 * index) t)).
Proof.
  induction t as [h|l IHl r IHr]; intros n acc s Hp Hpres;
    destruct n as [|n]; simpl in Hp; try contradiction.
  - simpl. unfold Stump.vret. rewrite !app_nil_r. destruct s; reflexivity.
  - destruct Hp as [Hpl Hpr]. destruct Hpres as [Hrec [Hprl Hprr]].
    pose proof (thash_length l n Hpl) as Hll.
    pose proof (thash_length r n Hpr) as Hlr.
    pose proof (perfect_height l n Hpl) as Hhl.
    cbn [Stump.getHashPath_loop].
    erewrite vbind_Done by apply lift_get_run.
    cbn [thash data log]. rewrite Hrec.
    rewrite bool_decide_eq_true_2 by (rewrite length_app; lia).
    rewrite slice_left, slice_right by assumption.
    replace (Z.of_nat (S n) - 1) with (Z.of_nat n) by lia.
    assert (Hside : isLeftNode index (Z.of_nat n) = negb (Z.testbit (2 * index) (Z.of_nat n))).
    { destruct n as [|n'].
      - rewrite isLeftNode_low by (simpl; lia). change (Z.of_nat 0) with 0.
        rewrite Z.testbit_even_0. reflexivity.
      - rewrite Nat2Z.inj_succ.
        rewrite Z.double_bits_succ. rewrite <- Z.add_1_r.
        apply isLeftNode_testbit. lia. }
    rewrite Hside.
    cbn [pairs_down walk thash map fst snd]. rewrite Hhl.
    destruct (Z.testbit (2 * index) (Z.of_nat n)); cbn [negb].
    + rewrite (IHr n) by assumption. cbn [data log].
      rewrite <- !app_assoc. reflexivity.
    + rewrite (IHl n) by assumption. cbn [data log].
      rewrite <- !app_assoc. reflexivity.
Qed.

(** [getHashPath] of the variant walks to another leaf. It selects the
    side at layer [l] with [isLeftNode(index, l - 1)], the loop counter,
    and does not reverse the result. On a tree opened on an empty store
    and updated without a collision of hashes it returns, root first, the
    pairs that [getHashPath] of the first file returns, leaf first, for
    the index [2 * index]. *)
Theorem stump_getHashPath_walks_to_double (fuel : nat) (nm : Buffer) (d : Z)
    (ops : list (Z * Buffer)) (index : Z) :
  1 <= d <= 32 -> (Z.to_nat d < fuel)%nat ->
  collision_free (trees_of (default_tree (Z.to_nat d)) ops) nm ->
  exists T s path s',
    session fuel nm d ops empty_store = Ok T s /\
    getHashPath T (2 * index) s = Ok path s' /\
    Stump.getHashPath hash compress T index s =
      Stump.Done (map (fun p => [fst p; snd p]) (rev path)) s' /\
    Z.of_nat (length path) = d.
Proof.
  intros Hd Hfuel Hcf.
  destruct (session_Inv _ nm d fuel ops Hd Hfuel Hcf)
    as (T & s & Hrun & HI & Hname); [auto|].
  pose proof (Inv_perfect _ _ _ _ _ HI) as Hp.
  exists T, s. eexists _, _. split; [exact Hrun|].
  split; [eapply getHashPath_ok; exact HI|]. split.
  - unfold Stump.getHashPath.
    rewrite (Inv_root _ _ _ _ _ HI), (Inv_depth _ _ _ _ _ HI), Nat2Z.id.
    rewrite rev_involutive.
    rewrite (stump_getHashPath_loop_ok index _ (Z.to_nat d) [] s Hp); [reflexivity|apply HI].
  - rewrite length_rev, (pairs_down_length _ _ _ Hp). lia.
Qed.

Lemma computeZeroRoot_loop_iter n : forall x,
  Stump.computeZeroRoot_loop compress n x = Nat.iter n (fun y => compress y y) x.
Proof.
  induction n as [|n IH]; intros x; [reflexivity|].
  cbn [Stump.computeZeroRoot_loop]. rewrite IH, Nat.iter_succ_r. reflexivity.
Qed.

(** [computeZeroRoot(depth)] of the variant is the root that empty-tree
    initialisation gives a tree of that depth, and for a layer of 0 or
    less it is the hash of 64 zero bytes. *)
Theorem computeZeroRoot_is_empty_root (nm : Buffer) (d : Z) (s : Store) :
  1 <= d <= 32 -> data s !! nm = None ->
  (exists T s', new nm d s = Ok T s' /\
     getRoot T = Stump.computeZeroRoot hash compress d) /\
  (forall layer, layer <= 0 ->
     Stump.computeZeroRoot hash compress layer = hash (repeat x00 64)).
Proof.
  intros Hd Hnm. split.
  - pose proof (new_fresh nm d s Hd Hnm) as Hnew. cbn zeta in Hnew.
    eexists _, _. split; [exact Hnew|]. cbn [getRoot root].
    unfold Stump.computeZeroRoot. rewrite computeZeroRoot_loop_iter. reflexivity.
  - intros layer Hl. unfold Stump.computeZeroRoot.
    replace (Z.to_nat layer) with 0%nat by lia. reflexivity.
Qed.



Lemma stump_update_rejects i v t : forall n fuel s,
  perfect n t -> present (data s) t ->
  (forall h, In (Leaf h) (subtrees t) -> data s !! h = None) ->
  (n < fuel)%nat -> ~ 0 <= i < 2 ^ 32 ->
  Stump.recursiveUpdateElement hash compress fuel (thash t) v i (Z.of_nat n) s =
  Stump.Fail (Stump.Base RangeError) (mkStore (data s) (log s ++ descent i t)).
Proof.
  induction t as [h|l IHl r IHr]; intros n fuel s Hp Hpres Hleaf Hfuel Hi;
    destruct n as [|n]; simpl in Hp; try contradiction;
    (destruct fuel as [|fuel]; [lia|]).
  - cbn [Stump.recursiveUpdateElement thash].
    erewrite vbind_Done by apply lift_get_run.
    rewrite (Hleaf h) by (left; reflexivity).
    rewrite bool_decide_eq_true_2 by reflexivity.
    unfold Buf.writeUInt32LE.
    rewrite bool_decide_eq_false_2 by exact Hi. reflexivity.
  - destruct Hp as [Hpl Hpr]. destruct Hpres as [Hrec [Hprl Hprr]].
    pose proof (thash_length l n Hpl) as Hll.
    pose proof (thash_length r n Hpr) as Hlr.
    pose proof (perfect_height l n Hpl) as Hhl.
    cbn [Stump.recursiveUpdateElement].
    erewrite vbind_Done by apply lift_get_run.
    cbn [thash]. rewrite Hrec.
    rewrite bool_decide_eq_false_2 by (rewrite length_app; lia).
    rewrite bool_decide_eq_false_2 by (rewrite length_app; lia).
    rewrite bool_decide_eq_true_2 by (rewrite length_app; lia).
    rewrite slice_left, slice_right by assumption.
    rewrite Nat2Z.inj_succ, <- Z.add_1_r.
    rewrite isLeftNode_testbit by lia.
    replace (Z.of_nat n + 1 - 1) with (Z.of_nat n) by lia.
    cbn [descent]. rewrite Hhl.
    destruct (Z.testbit i (Z.of_nat n)) eqn:Hbit; cbn [negb]; unfold Stump.vbind at 1.
    + rewrite (IHr n fuel); [|exact Hpr|exact Hprr| |lia|exact Hi].
      * cbn [data log]. rewrite <- app_assoc. reflexivity.
      * intros h Hh. apply Hleaf. right. apply in_or_app. right. exact Hh.
    + rewrite (IHl n fuel); [|exact Hpl|exact Hprl| |lia|exact Hi].
      * cbn [data log]. rewrite <- app_assoc. reflexivity.
      * intros h Hh. apply Hleaf. right. apply in_or_app. left. exact Hh.
Qed.


(** The variant does check the index, at the leaf: its stump holds the
    index as a 32-bit unsigned integer. On a tree opened on an empty store
    and updated, [recursiveUpdateElement] fails with a RangeError for a
    negative index and for an index of [2^32] or more, after the
    [depth + 1] reads of the descent and before any write. The proviso:
    the leaves and nodes of the trees gone through all have different
    hashes, none of them the name of the tree; in particular no leaf hash
    is the key of a node ([leaf_not_node]), or the descent would read on
    below the leaf before it fails. *)
Theorem stump_update_rejects_index (fuel : nat) (nm : Buffer) (d : Z)
    (ops : list (Z * Buffer)) (i : Z) (v : Buffer) :
  1 <= d <= 32 -> (Z.to_nat d < fuel)%nat -> ~ 0 <= i < 2 ^ 32 ->
  collision_free (trees_of (default_tree (Z.to_nat d)) ops) nm ->
  exists T s s',
    session fuel nm d ops empty_store = Ok T s /\
    Stump.recursiveUpdateElement hash compress fuel (root T) v i (depth T) s
      = Stump.Fail (Stump.Base RangeError) s' /\
    data s' = data s /\
    exists gets, log s' = log s ++ gets /\ Forall is_get gets /\
                 Z.of_nat (length gets) = d + 1.
Proof.
  intros Hd Hfuel Hi Hcf.
  destruct (session_Inv _ nm d fuel ops Hd Hfuel Hcf)
    as (T & s & Hrun & HI & Hname); [auto|].
  set (t := tree_after (default_tree (Z.to_nat d)) ops) in *.
  rewrite <- Hname in Hcf.
  pose proof (Inv_perfect _ _ _ _ _ HI) as Hp.
  assert (Hpres : present (data s) t) by apply HI.
  assert (Hleaf : forall h, In (Leaf h) (subtrees t) -> data s !! h = None).
  { intros h Hh.
    apply (leaf_absent (trees_of (default_tree (Z.to_nat d)) ops) (name T) _ t);
      try assumption; apply HI. }
  destruct (descent_shape i t _ Hp) as [Hdl Hdg].
  exists T, s. eexists.
  rewrite (Inv_root _ _ _ _ _ HI), (Inv_depth _ _ _ _ _ HI).
  split; [exact Hrun|].
  split; [apply stump_update_rejects; assumption|].
  split; [reflexivity|]. exists (descent i t).
  split; [reflexivity|]. split; [exact Hdg|lia].
Qed.

(** *** Running the collision check *)

Lemma collision_freeb_sound U nm : collision_freeb U nm = true -> collision_free U nm.
Proof.
  unfold collision_freeb, collision_free. cbv zeta. intros H.
  apply andb_prop in H. destruct H as [H1 H2].
  rewrite forallb_forall in H1. rewrite forallb_forall in H2. split.
  - intros s1 s2 Hs1 Hs2 E.
    specialize (H1 (thash s1, s1) (in_map _ _ _ Hs1)).
    rewrite forallb_forall in H1.
    specialize (H1 (thash s2, s2) (in_map _ _ _ Hs2)). cbn [fst snd] in H1.
    rewrite bool_decide_eq_true_2 in H1 by exact E.
    apply bool_decide_eq_true_1 in H1. exact H1.
  - intros s Hs E. specialize (H2 (thash s, s) (in_map _ _ _ Hs)). cbn [fst snd] in H2.
    rewrite bool_decide_eq_true_2 in H2 by exact E. discriminate H2.
Qed.

(** The check is complete as well: a run on which it fails is a run with a
    collision. *)
Lemma collision_freeb_complete U nm : collision_free U nm -> collision_freeb U nm = true.
Proof.
  unfold collision_freeb, collision_free. cbv zeta. intros [H1 H2].
  apply andb_true_intro. split.
  - apply forallb_forall. intros p1 Hp1. apply forallb_forall. intros p2 Hp2.
    apply in_map_iff in Hp1. destruct Hp1 as (s1 & <- & Hs1).
    apply in_map_iff in Hp2. destruct Hp2 as (s2 & <- & Hs2).
    cbn [fst snd]. destruct (bool_decide (thash s1 = thash s2)) eqn:E; [|reflexivity].
    apply bool_decide_eq_true_1 in E. cbn [implb].
    apply bool_decide_eq_true_2. apply H1; assumption.
  - apply forallb_forall. intros p Hp.
    apply in_map_iff in Hp. destruct Hp as (s & <- & Hs). cbn [fst].
    rewrite bool_decide_eq_false_2; [reflexivity|]. apply H2. exact Hs.
Qed.

Lemma collision_freeb_false U nm : collision_freeb U nm = false -> ~ collision_free U nm.
Proof. intros E H. rewrite (collision_freeb_complete U nm H) in E. discriminate E. Qed.

End Tree.

(** * The claims on a concrete hasher *)

Lemma toy_hash_length v : length (Toy.hash v) = 32%nat.
Proof. unfold Toy.hash, Toy.enc32. rewrite length_map, length_seq. reflexivity. Qed.

Lemma toy_compress_length a b : length (Toy.compress a b) = 32%nat.
Proof. unfold Toy.compress, Toy.enc32. rewrite length_map, length_seq. reflexivity. Qed.

Lemma update_then_prove_witness :
  collision_free Toy.compress
    (trees_of Toy.hash (default_tree Toy.hash 2) ([(1, repeat x01 64)] ++ [(2, repeat x02 64)]))
    [x74] /\
  exists T s path s',
    session Toy.hash Toy.compress 3 [x74] 2
      ([(1, repeat x01 64)] ++ [(2, repeat x02 64)]) empty_store = Ok T s /\
    getHashPath T 2 s = Ok path s' /\
    recompute Toy.compress 0 2 (Toy.hash (repeat x02 64)) path = getRoot T.
Proof.
  assert (Hcf : collision_free Toy.compress
    (trees_of Toy.hash (default_tree Toy.hash (Z.to_nat 2))
       ([(1, repeat x01 64)] ++ [(2, repeat x02 64)])) [x74]).
  { apply collision_freeb_sound. vm_compute. reflexivity. }
  split; [exact Hcf|].
  apply (update_then_prove Toy.hash Toy.compress toy_hash_length toy_compress_length
           3 [x74] 2 [(1, repeat x01 64)] 2 (repeat x02 64)).
  - lia.
  - simpl. lia.
  - lia.
  - exact Hcf.
Defined.



Lemma new_empty_tree_witness :
  exists T s',
    new Toy.hash Toy.compress [x74] 2 empty_store = Ok T s' /\
    name T = [x74] /\ depth T = 2 /\
    getRoot T = Nat.iter (Z.to_nat 2) (fun x => Toy.compress x x) (Toy.hash (repeat x00 64)) /\
    log s' = log empty_store ++ [Get [x74] None]
               ++ map (fun k => Put (default_node Toy.hash Toy.compress (S k))
                                    (default_node Toy.hash Toy.compress k
                                       ++ default_node Toy.hash Toy.compress k))
                      (seq 0 (Z.to_nat 2))
               ++ [Put [x74] (getRoot T ++ Buf.le32 2 ++ repeat x00 4)] /\
    data s' = replay (skipn (length (log empty_store)) (log s')) (data empty_store).
Proof.
  apply (new_empty_tree Toy.hash Toy.compress toy_hash_length toy_compress_length
           [x74] 2 empty_store).
  - lia.
  - reflexivity.
Defined.

Lemma metadata_round_trip_witness :
  let T := mkTree [x74] 3 (Toy.hash [x01]) in
  exists s1 record T' s2,
    writeMetaData T empty_store = Ok tt s1 /\
    data s1 !! name T = Some record /\
    record = root T ++ Buf.le32 (depth T) ++ repeat x00 4 /\
    length record = 40%nat /\
    new Toy.hash Toy.compress (name T) 7 s1 = Ok T' s2 /\
    T' = T /\
    data s2 = data s1 /\
    log s2 = log s1 ++ [Get (name T) (Some record)].
Proof.
  apply (metadata_round_trip Toy.hash Toy.compress
           (mkTree [x74] 3 (Toy.hash [x01])) empty_store 7).
  - reflexivity.
  - simpl. lia.
Defined.

(** C6 as stated fails on the size and the layout: the record is 40 bytes
    long, not 32 + 4, and it is not the root followed by the depth only. *)
Lemma metadata_size_counterexample :
  let T := mkTree [x74] 1 (repeat x00 32) in
  exists s1 record,
    writeMetaData T empty_store = Ok tt s1 /\
    data s1 !! name T = Some record /\
    length record = 40%nat /\
    length record <> (length (root T) + 4)%nat /\
    record <> root T ++ Buf.le32 (depth T).
Proof.
  cbv zeta. eexists _, _.
  split; [vm_compute; reflexivity|].
  split; [vm_compute; reflexivity|].
  split; [reflexivity|]. split; [vm_compute; lia|].
  intros H. apply (f_equal (@length byte)) in H. vm_compute in H. discriminate H.
Qed.

Lemma updates_commute_witness :
  exists T12 s12 T21 s21,
    session Toy.hash Toy.compress 3 [x74] 2
      ([(1, repeat x03 64)] ++ [(0, repeat x01 64); (3, repeat x02 64)]) empty_store
      = Ok T12 s12 /\
    session Toy.hash Toy.compress 3 [x74] 2
      ([(1, repeat x03 64)] ++ [(3, repeat x02 64); (0, repeat x01 64)]) empty_store
      = Ok T21 s21 /\
    getRoot T12 = getRoot T21.
Proof.
  apply (updates_commute Toy.hash Toy.compress toy_hash_length toy_compress_length
           3 [x74] 2 [(1, repeat x03 64)] 0 3 (repeat x01 64) (repeat x02 64)).
  - lia.
  - simpl. lia.
  - lia.
  - lia.
  - lia.
  - apply collision_freeb_sound. vm_compute. reflexivity.
  - apply collision_freeb_sound. vm_compute. reflexivity.
Defined.


Lemma content_addressing_witness :
  exists T s T' s',
    new Toy.hash Toy.compress [x74] 2 empty_store = Ok T s /\
    updateElement Toy.hash Toy.compress 3 T 1 (repeat x01 64) s = Ok T' s' /\
    content_addressed Toy.compress [x74] (data s) /\
    content_addressed Toy.compress [x74] (data s').
Proof.
  destruct (content_addressing Toy.hash Toy.compress toy_hash_length toy_compress_length)
    as [Hnew Hupd].
  assert (H0 : content_addressed Toy.compress [x74] (data empty_store)).
  { intros k c H. discriminate H. }
  assert (E : exists T s T' s',
            new Toy.hash Toy.compress [x74] 2 empty_store = Ok T s /\
            updateElement Toy.hash Toy.compress 3 T 1 (repeat x01 64) s = Ok T' s').
  { eexists _, _, _, _. split; [vm_compute; reflexivity|]. vm_compute. reflexivity. }
  destruct E as (T & s & T' & s' & E1 & E2).
  exists T, s, T', s'.
  destruct (Hnew _ _ _ _ _ H0 E1) as (_ & Hs & Hname & Hlen).
  rewrite <- Hname in Hs.
  destruct (Hupd _ _ _ _ _ _ _ Hlen Hs E2) as (_ & Hs' & Hname' & _).
  rewrite Hname', Hname in Hs'. rewrite Hname in Hs. auto.
Defined.

Lemma leaf_hash_only_at_layer_0_witness :
  exists T s T' s',
    session Toy.hash Toy.compress 3 [x74] 2 [(1, repeat x01 64)] empty_store = Ok T s /\
    updateElement Toy.hash Toy.compress 3 T 2 (repeat x02 64) s = Ok T' s' /\
    let calls := descentCalls 3 (data s) (root T) 2 (depth T) in
    map snd calls = rev (map Z.of_nat (seq 0 (S (Z.to_nat 2)))) /\
    Forall (fun c =>
              (0 < snd c -> exists rec, data s !! fst c = Some rec /\ length rec = 64%nat) /\
              (snd c <= 0 -> snd c = 0 /\ data s !! fst c = None)) calls /\
    (exists writes,
       log s' = log s ++ map (fun c => Get (fst c) (data s !! fst c)) calls ++ writes /\
       forall k f, ~ In (Get k f) writes) /\
    getRoot T' = thash Toy.compress
      (upd 2 (Toy.hash (repeat x02 64))
         (tree_after Toy.hash (default_tree Toy.hash (Z.to_nat 2)) [(1, repeat x01 64)])).
Proof.
  apply (leaf_hash_only_at_layer_0 Toy.hash Toy.compress toy_hash_length toy_compress_length
           3 [x74] 2 [(1, repeat x01 64)] 2 (repeat x02 64)).
  - lia.
  - simpl. lia.
  - lia.
  - apply collision_freeb_sound. vm_compute. reflexivity.
Defined.



(** * The claims that fail when a leaf hash is the key of a node

    The runs below use the hasher [OneHash], whose [compress l r] is
    [hash (l ++ r)]. Every index is in range and every value is 64 bytes
    long; the byte strings hashed in a run all have different hashes, so
    the hash function itself does not collide. What the runs have is a
    leaf value equal to the content [l ++ r] of a node record, so that the
    hash of the leaf is the key of that record. *)

Lemma onehash_hash_length v : length (OneHash.hash v) = 32%nat.
Proof. unfold OneHash.hash, OneHash.enc32. rewrite length_map, length_seq. reflexivity. Qed.

Lemma onehash_compress_length a b : length (OneHash.compress a b) = 32%nat.
Proof. apply onehash_hash_length. Qed.

Lemma onehash_compress a b : OneHash.compress a b = OneHash.hash (a ++ b).
Proof. reflexivity. Qed.

Lemma value_store_of {A} (o : outcome A) (a : A) :
  value_of o = Some a -> o = Ok a (store_of o).
Proof. destruct o; intros H; try discriminate H. injection H as ->. reflexivity. Qed.

(** Both sides of an equation are run and compared. *)
Ltac by_running :=
  match goal with
  | |- ?x = ?y => apply (@bool_decide_eq_true_1 (x = y) (decide_rel (=) x y))
  | |- ?x <> ?y => apply (@bool_decide_eq_false_1 (x = y) (decide_rel (=) x y))
  | |- NoDup ?l => apply (@bool_decide_eq_true_1 (NoDup l) (NoDup_dec l))
  | |- ~ collision_free _ _ _ => apply collision_freeb_false
  end; vm_compute; reflexivity.

(** C1 as stated fails on a fresh tree of depth 1. The first update writes
    at index 0 the value [d0 ++ d0], the content of the default node: its
    hash is the key of that node. The second update writes [v2] at index 0:
    its descent finds a record under the hash of leaf 0, goes on to layer
    -1 and hangs a new node where the leaf was. [getHashPath(0)] returns
    the one pair [(c, d0)] under the root [compress c d0], where
    [c = compress (hash v2) d0], and the verifier started from [hash v2]
    ends at [c], not at the root. *)
Lemma update_then_prove_counterexample :
  let d0 := OneHash.hash (repeat x00 64) in
  let v1 := d0 ++ d0 in
  let v2 := repeat x01 64 in
  let c := OneHash.compress (OneHash.hash v2) d0 in
  exists T s path s',
    length v1 = 64%nat /\ length v2 = 64%nat /\
    session OneHash.hash OneHash.compress 4 [x74] 1 [(0, v1); (0, v2)] empty_store = Ok T s /\
    getHashPath T 0 s = Ok path s' /\
    path = [(c, d0)] /\
    getRoot T = OneHash.compress c d0 /\
    recompute OneHash.compress 0 0 (OneHash.hash v2) path = c /\
    recompute OneHash.compress 0 0 (OneHash.hash v2) path <> getRoot T /\
    NoDup (map OneHash.hash
             [repeat x00 64; v1; OneHash.hash v1 ++ d0; v2; OneHash.hash v2 ++ d0; c ++ d0]) /\
    ~ collision_free OneHash.compress
        (trees_of OneHash.hash (default_tree OneHash.hash 1) [(0, v1); (0, v2)]) [x74].
Proof.
  intros d0 v1 v2 c.
  set (run := session OneHash.hash OneHash.compress 4 [x74] 1 [(0, v1); (0, v2)] empty_store).
  set (T := mkTree [x74] 1 (OneHash.compress c d0)).
  exists T, (store_of run), [(c, d0)], (store_of (getHashPath T 0 (store_of run))).
  split; [by_running|]. split; [reflexivity|].
  split; [apply value_store_of; by_running|].
  split; [apply value_store_of; by_running|].
  split; [reflexivity|]. split; [reflexivity|]. split; [reflexivity|].
  split; [by_running|]. split; by_running.
Qed.

(** C7 as stated fails on a tree of depth 2 on which leaf 2 holds the value
    [w = hash va ++ d0]. Its hash is [k = compress (hash va) d0], the key
    that the node above the leaves 0 and 1 gets once [va] is written at
    index 0. Written first, [va] at index 0 creates the record under [k];
    the update of index 2 then finds it under the hash of leaf 2 and
    descends to layer -1. Written second, it comes too late for that. The
    two orders give the roots [compress k (compress c d0)] and
    [compress k c], where [c = compress (hash vb) d0]. *)
Lemma updates_commute_counterexample :
  let d0 := OneHash.hash (repeat x00 64) in
  let va := repeat x01 64 in
  let vb := repeat x02 64 in
  let w := OneHash.hash va ++ d0 in
  let k := OneHash.compress (OneHash.hash va) d0 in
  let c := OneHash.compress (OneHash.hash vb) d0 in
  let n1 := OneHash.compress d0 d0 in
  exists T12 s12 T21 s21,
    length w = 64%nat /\ OneHash.hash w = k /\
    session OneHash.hash OneHash.compress 5 [x74] 2
      ([(2, w)] ++ [(0, va); (2, vb)]) empty_store = Ok T12 s12 /\
    session OneHash.hash OneHash.compress 5 [x74] 2
      ([(2, w)] ++ [(2, vb); (0, va)]) empty_store = Ok T21 s21 /\
    getRoot T12 = OneHash.compress k (OneHash.compress c d0) /\
    getRoot T21 = OneHash.compress k c /\
    getRoot T12 <> getRoot T21 /\
    NoDup (map OneHash.hash
             [repeat x00 64; d0 ++ d0; n1 ++ n1; w; k ++ d0;
              n1 ++ OneHash.compress k d0; va; k ++ OneHash.compress k d0; vb;
              OneHash.hash vb ++ d0; c ++ d0; k ++ OneHash.compress c d0;
              n1 ++ c; k ++ c]) /\
    ~ collision_free OneHash.compress
        (trees_of OneHash.hash (default_tree OneHash.hash 2)
           ([(2, w)] ++ [(0, va); (2, vb)])) [x74].
Proof.
  intros d0 va vb w k c n1.
  set (run12 := session OneHash.hash OneHash.compress 5 [x74] 2
                  ([(2, w)] ++ [(0, va); (2, vb)]) empty_store).
  set (run21 := session OneHash.hash OneHash.compress 5 [x74] 2
                  ([(2, w)] ++ [(2, vb); (0, va)]) empty_store).
  exists (mkTree [x74] 2 (OneHash.compress k (OneHash.compress c d0))), (store_of run12),
         (mkTree [x74] 2 (OneHash.compress k c)), (store_of run21).
  split; [by_running|]. split; [reflexivity|].
  split; [apply value_store_of; by_running|].
  split; [apply value_store_of; by_running|].
  split; [reflexivity|]. split; [reflexivity|].
  split; [by_running|]. split; by_running.
Qed.

(** C10 as stated fails on the tree of depth 1 whose leaf 0 holds the
    value [d0 ++ d0]. The descent of one more update at index 0 calls
    [updateElementRecursively] at the layers 1, 0 and -1: the call at
    layer 0 finds the record of the default node under the hash of the
    leaf, and only the call at layer -1 finds nothing and returns
    [hash(value)]. Two node records are written where the tree has one
    level, and the new root is not the root of the tree with [hash(value)]
    at leaf 0. *)
Lemma leaf_hash_below_layer_0_counterexample :
  let d0 := OneHash.hash (repeat x00 64) in
  let v1 := d0 ++ d0 in
  let v2 := repeat x01 64 in
  let n1 := OneHash.compress d0 d0 in
  let r1 := OneHash.compress n1 d0 in
  let c := OneHash.compress (OneHash.hash v2) d0 in
  exists T s T' s' meta,
    length v1 = 64%nat /\ OneHash.hash v1 = n1 /\
    session OneHash.hash OneHash.compress 4 [x74] 1 [(0, v1)] empty_store = Ok T s /\
    updateElement OneHash.hash OneHash.compress 4 T 0 v2 s = Ok T' s' /\
    descentCalls 4 (data s) (root T) 0 (depth T) = [(r1, 1); (n1, 0); (d0, -1)] /\
    log s' = log s ++ [Get r1 (Some (n1 ++ d0)); Get n1 (Some (d0 ++ d0)); Get d0 None;
                       Put c (OneHash.hash v2 ++ d0); Put (OneHash.compress c d0) (c ++ d0);
                       Put [x74] meta] /\
    getRoot T' = OneHash.compress c d0 /\
    getRoot T' <> thash OneHash.compress
                    (upd 0 (OneHash.hash v2)
                       (tree_after OneHash.hash (default_tree OneHash.hash 1) [(0, v1)])) /\
    NoDup (map OneHash.hash
             [repeat x00 64; v1; n1 ++ d0; v2; OneHash.hash v2 ++ d0; c ++ d0]) /\
    ~ collision_free OneHash.compress
        (trees_of OneHash.hash (default_tree OneHash.hash 1) ([(0, v1)] ++ [(0, v2)])) [x74].
Proof.
  intros d0 v1 v2 n1 r1 c.
  set (run := session OneHash.hash OneHash.compress 4 [x74] 1 [(0, v1)] empty_store).
  set (T := mkTree [x74] 1 r1).
  set (T' := mkTree [x74] 1 (OneHash.compress c d0)).
  set (run' := updateElement OneHash.hash OneHash.compress 4 T 0 v2 (store_of run)).
  exists T, (store_of run), T', (store_of run'), (metadata (root T') 1).
  split; [by_running|]. split; [reflexivity|].
  split; [apply value_store_of; by_running|].
  split; [apply value_store_of; by_running|].
  split; [by_running|]. split; [by_running|].
  split; [reflexivity|].
  split; [by_running|]. split; by_running.
Qed.

(** * The further properties on the concrete hasher *)

Lemma isLeftNode_reaches_index_witness : leafNumber 3 5 = 5.
Proof. apply (proj2 (isLeftNode_reaches_index 3 5)). simpl. lia. Defined.

Lemma every_leaf_provable_witness :
  exists T s path s',
    session Toy.hash Toy.compress 2 [x74] 1 [(0, repeat x01 64)] empty_store = Ok T s /\
    getHashPath T 1 s = Ok path s' /\
    recompute Toy.compress 0 1 (leaf_hash_after Toy.hash [(0, repeat x01 64)] 1) path
      = getRoot T.
Proof.
  apply (every_leaf_provable Toy.hash Toy.compress toy_hash_length toy_compress_length
           2 [x74] 1 [(0, repeat x01 64)] 1).
  - lia.
  - simpl. lia.
  - constructor; [unfold in_range; simpl; lia|constructor].
  - lia.
  - apply collision_freeb_sound. vm_compute. reflexivity.
Defined.

Lemma last_write_wins_witness :
  exists T12 s12 T2 s2,
    session Toy.hash Toy.compress 2 [x74] 1
      ([] ++ [(0, repeat x01 64); (0, repeat x02 64)]) empty_store = Ok T12 s12 /\
    session Toy.hash Toy.compress 2 [x74] 1 ([] ++ [(0, repeat x02 64)]) empty_store
      = Ok T2 s2 /\
    getRoot T12 = getRoot T2.
Proof.
  apply (last_write_wins Toy.hash Toy.compress toy_hash_length toy_compress_length
           2 [x74] 1 [] 0 (repeat x01 64) (repeat x02 64)).
  - lia.
  - simpl. lia.
  - apply collision_freeb_sound. vm_compute. reflexivity.
  - apply collision_freeb_sound. vm_compute. reflexivity.
Defined.

Lemma empty_tree_hash_path_witness :
  exists T s path s',
    new Toy.hash Toy.compress [x74] 2 empty_store = Ok T s /\
    getHashPath T 3 s = Ok path s' /\
    path = map (fun k => (default_node Toy.hash Toy.compress k,
                          default_node Toy.hash Toy.compress k)) (seq 0 (Z.to_nat 2)) /\
    Forall (fun p => fst p = snd p) path /\
    length path = Z.to_nat 2.
Proof.
  apply (empty_tree_hash_path Toy.hash Toy.compress toy_hash_length toy_compress_length
           [x74] 2 3).
  - lia.
  - apply collision_freeb_sound. vm_compute. reflexivity.
Defined.

Lemma reopen_after_session_witness :
  exists T s,
    session Toy.hash Toy.compress 2 [x74] 1 [(1, [x01])] empty_store = Ok T s /\
    new Toy.hash Toy.compress [x74] 9 s =
      Ok T (mkStore (data s) (log s ++ [Get [x74] (data s !! [x74])])).
Proof.
  assert (E : exists T s,
            session Toy.hash Toy.compress 2 [x74] 1 [(1, [x01])] empty_store = Ok T s).
  { eexists _, _. vm_compute. reflexivity. }
  destruct E as (T & s & E). exists T, s. split; [exact E|].
  exact (proj1 (reopen_after_session Toy.hash Toy.compress toy_hash_length
                  toy_compress_length 2 [x74] 1 [(1, [x01])] empty_store T s 9 E)).
Defined.

Lemma new_failure_writes_nothing_witness :
  (exists s', new Toy.hash Toy.compress [x74] 33 empty_store = Throw BadDepth s') <->
  ~ 1 <= 33 <= 32.
Proof.
  destruct (new_failure_writes_nothing Toy.hash Toy.compress toy_hash_length
              toy_compress_length [x74] 33 empty_store) as (_ & _ & H & _).
  apply H. reflexivity.
Defined.

Lemma update_io_per_level_witness :
  exists T s T' s' gets puts meta,
    session Toy.hash Toy.compress 2 [x74] 1 [] empty_store = Ok T s /\
    updateElement Toy.hash Toy.compress 2 T 1 [x01] s = Ok T' s' /\
    log s' = log s ++ gets ++ puts ++ [Put [x74] meta] /\
    Forall is_get gets /\ Z.of_nat (length gets) = 1 + 1 /\
    Forall is_put puts /\ Z.of_nat (length puts) = 1 /\
    data s' = replay (puts ++ [Put [x74] meta]) (data s).
Proof.
  apply (update_io_per_level Toy.hash Toy.compress toy_hash_length toy_compress_length
           2 [x74] 1 [] 1 [x01]).
  - lia.
  - simpl. lia.
  - apply collision_freeb_sound. vm_compute. reflexivity.
Defined.

Lemma update_keeps_old_tree_witness :
  exists T s T' s',
    session Toy.hash Toy.compress 2 [x74] 1 [] empty_store = Ok T s /\
    updateElement Toy.hash Toy.compress 2 T 1 [x01] s = Ok T' s' /\
    (forall k c, k <> [x74] -> data s !! k = Some c -> data s' !! k = Some c) /\
    (forall j, exists path s1 s2,
        getHashPath T j s = Ok path s1 /\ getHashPath T j s' = Ok path s2 /\
        Z.of_nat (length path) = 1).
Proof.
  apply (update_keeps_old_tree Toy.hash Toy.compress toy_hash_length toy_compress_length
           2 [x74] 1 [] 1 [x01]).
  - lia.
  - simpl. lia.
  - apply collision_freeb_sound. vm_compute. reflexivity.
Defined.

Lemma self_reference_never_returns_witness :
  let k := repeat x00 32 in
  let s := mkStore {[ k := k ++ k ]} [] in
  updateElementRecursively Toy.hash Toy.compress 100 (mkTree [x74] 1 k) k 0 [x01] 1 s
    = OutOfFuel /\
  (root (mkTree [x74] 1 k) = k ->
   updateElement Toy.hash Toy.compress 100 (mkTree [x74] 1 k) 0 [x01] s = OutOfFuel).
Proof.
  cbv zeta.
  apply (self_reference_never_returns Toy.hash Toy.compress 100
           (mkTree [x74] 1 (repeat x00 32)) (repeat x00 32) 0 [x01] 1).
  - reflexivity.
  - apply lookup_singleton_eq.
Defined.

Lemma revised_throw_writes_nothing_witness :
  let k := repeat x00 32 in
  let s := mkStore {[ k := [x01; x02; x03] ]} [] in
  let s' := mkStore (data s) [Get k (Some [x01; x02; x03])] in
  DataFormat = DataFormat /\ data s' = data s /\
  exists gets, log s' = log s ++ gets /\ Forall is_get gets /\
    exists k' c, last gets = Some (Get k' (Some c)) /\
      length c <> 0%nat /\ length c <> 64%nat.
Proof.
  cbv zeta.
  apply (revised_throw_writes_nothing Toy.hash Toy.compress 1 (repeat x00 32) 0 [x01] 1
           (mkStore {[ repeat x00 32 := [x01; x02; x03] ]} []) DataFormat).
  cbn [Revised.updateElementRecursively].
  erewrite bind_Ok by apply db_get_or_empty_run.
  cbn [data log]. rewrite lookup_singleton_eq. reflexivity.
Defined.

Lemma revised_update_agrees_witness :
  updateElementRecursively Toy.hash Toy.compress 1 (mkTree [x74] 1 (repeat x00 32))
    (repeat x00 32) 0 [x01] 0 empty_store
  = Ok (Toy.hash [x01]) (mkStore ∅ [Get (repeat x00 32) None]).
Proof.
  apply (proj1 (revised_update_agrees Toy.hash Toy.compress 1
                  (mkTree [x74] 1 (repeat x00 32)) (repeat x00 32) 0 [x01] 0 empty_store
                  ltac:(lia))).
  reflexivity.
Defined.

Lemma revised_getHashPath_same_witness :
  Revised.getHashPath (mkTree [x74] 2 (repeat x00 32)) 3 empty_store =
  getHashPath (mkTree [x74] 2 (repeat x00 32)) 3 empty_store.
Proof. apply revised_getHashPath_same. lia. Defined.


Lemma stump_record_not_readable_witness :
  let T := mkTree [x74] 1 (repeat x00 32) in
  let c := repeat x01 65 in
  let s := mkStore {[ repeat x00 32 := c ]} [] in
  Stump.getHashPath Toy.hash Toy.compress T 0 s =
  Stump.Fail (Stump.Base RangeError) (mkStore (data s) (log s ++ [Get (root T) (Some c)])).
Proof.
  cbv zeta.
  apply (stump_record_not_readable Toy.hash Toy.compress
           (mkTree [x74] 1 (repeat x00 32)) 0
           (mkStore {[ repeat x00 32 := repeat x01 65 ]} []) (repeat x01 65)).
  - simpl. lia.
  - apply lookup_singleton_eq.
  - reflexivity.
Defined.

Lemma stump_getHashPath_walks_to_double_witness :
  exists T s path s',
    session Toy.hash Toy.compress 3 [x74] 2 [(2, [x01])] empty_store = Ok T s /\
    getHashPath T (2 * 1) s = Ok path s' /\
    Stump.getHashPath Toy.hash Toy.compress T 1 s =
      Stump.Done (map (fun p => [fst p; snd p]) (rev path)) s' /\
    Z.of_nat (length path) = 2.
Proof.
  apply (stump_getHashPath_walks_to_double Toy.hash Toy.compress toy_hash_length
           toy_compress_length 3 [x74] 2 [(2, [x01])] 1).
  - lia.
  - simpl. lia.
  - apply collision_freeb_sound. vm_compute. reflexivity.
Defined.

Lemma computeZeroRoot_is_empty_root_witness :
  (exists T s', new Toy.hash Toy.compress [x74] 2 empty_store = Ok T s' /\
     getRoot T = Stump.computeZeroRoot Toy.hash Toy.compress 2) /\
  (forall layer, layer <= 0 ->
     Stump.computeZeroRoot Toy.hash Toy.compress layer = Toy.hash (repeat x00 64)).
Proof.
  apply (computeZeroRoot_is_empty_root Toy.hash Toy.compress toy_hash_length
           toy_compress_length [x74] 2 empty_store).
  - lia.
  - reflexivity.
Defined.


Lemma stump_update_rejects_index_witness :
  exists T s s',
    session Toy.hash Toy.compress 2 [x74] 1 [] empty_store = Ok T s /\
    Stump.recursiveUpdateElement Toy.hash Toy.compress 2 (root T) [x01] (-1) (depth T) s
      = Stump.Fail (Stump.Base RangeError) s' /\
    data s' = data s /\
    exists gets, log s' = log s ++ gets /\ Forall is_get gets /\
                 Z.of_nat (length gets) = 1 + 1.
Proof.
  apply (stump_update_rejects_index Toy.hash Toy.compress toy_hash_length
           toy_compress_length 2 [x74] 1 [] (-1) [x01]).
  - lia.
  - simpl. lia.
  - lia.
  - apply collision_freeb_sound. vm_compute. reflexivity.
Defined.
